(** * LSB steganography tool: embedding of [stego_enhanced.py]

    The development follows the Python module: the byte and bit helpers the
    module relies on, the two library routines it calls ([hashlib.sha256] and
    the UTF-8 codec), then [encode_message] and [decode_message] themselves,
    and finally the properties of the embedding protocol. *)

From Stdlib Require Import ZArith List Lia Bool Arith.
Import ListNotations.

Local Open Scope Z_scope.

(** ** Bytes and big-endian integers *)

(** A byte is an integer in [0, 256), as the elements of a [bytes] or
    [bytearray] object are. *)
Definition is_byte (b : Z) : Prop := 0 <= b < 256.

(** [n.to_bytes(k, byteorder='big')] on the digits alone (no range check). *)
Definition be_bytes (k : nat) (n : Z) : list Z :=
  map (fun i => (n / 256 ^ Z.of_nat i) mod 256) (rev (seq 0 k)).

(** [int.from_bytes(bs, byteorder='big')]. *)
Definition from_bytes (bs : list Z) : Z :=
  fold_left (fun acc b => acc * 256 + b) bs 0.

(** [n.to_bytes(4, byteorder='big')]: raises [OverflowError] when the value
    does not fit in four bytes. *)
Definition to_bytes4 (n : Z) : option (list Z) :=
  if (0 <=? n) && (n <? 2 ^ 32) then Some (be_bytes 4 n) else None.

(** ** [hashlib.sha256]

    The digest the module derives its key from, after FIPS 180-4, on 32-bit
    words held in [Z]. *)
Module Sha256.

Definition add32 (x y : Z) : Z := (x + y) mod 2 ^ 32.

Definition rotr (n x : Z) : Z :=
  Z.lor (Z.shiftr x n) (Z.shiftl x (32 - n) mod 2 ^ 32).

Definition Ch (x y z : Z) : Z :=
  Z.lxor (Z.land x y) (Z.land (Z.lxor x (2 ^ 32 - 1)) z).

Definition Maj (x y z : Z) : Z :=
  Z.lxor (Z.lxor (Z.land x y) (Z.land x z)) (Z.land y z).

Definition Sigma0 (x : Z) : Z :=
  Z.lxor (Z.lxor (rotr 2 x) (rotr 13 x)) (rotr 22 x).
Definition Sigma1 (x : Z) : Z :=
  Z.lxor (Z.lxor (rotr 6 x) (rotr 11 x)) (rotr 25 x).
Definition sigma0 (x : Z) : Z :=
  Z.lxor (Z.lxor (rotr 7 x) (rotr 18 x)) (Z.shiftr x 3).
Definition sigma1 (x : Z) : Z :=
  Z.lxor (Z.lxor (rotr 17 x) (rotr 19 x)) (Z.shiftr x 10).

(** Round constants: fractional parts of the cube roots of the first
    sixty-four primes. *)
Definition round_constants : list Z :=
[ 1116352408; 1899447441; 3049323471; 3921009573;
  961987163; 1508970993; 2453635748; 2870763221;
  3624381080; 310598401; 607225278; 1426881987;
  1925078388; 2162078206; 2614888103; 3248222580;
  3835390401; 4022224774; 264347078; 604807628;
  770255983; 1249150122; 1555081692; 1996064986;
  2554220882; 2821834349; 2952996808; 3210313671;
  3336571891; 3584528711; 113926993; 338241895;
  666307205; 773529912; 1294757372; 1396182291;
  1695183700; 1986661051; 2177026350; 2456956037;
  2730485921; 2820302411; 3259730800; 3345764771;
  3516065817; 3600352804; 4094571909; 275423344;
  430227734; 506948616; 659060556; 883997877;
  958139571; 1322822218; 1537002063; 1747873779;
  1955562222; 2024104815; 2227730452; 2361852424;
  2428436474; 2756734187; 3204031479; 3329325298 ].

(** The eight working words. *)
Record state : Type := mk_state
  { wa : Z; wb : Z; wc : Z; wd : Z; we : Z; wf : Z; wg : Z; wh : Z }.

Definition initial_state : state :=
  mk_state 1779033703 3144134277 1013904242 2773480762
           1359893119 2600822924 528734635 1541459225.

(** Padding: a [0x80] byte, zeros up to 56 modulo 64, the bit length on
    eight bytes. *)
Definition pad (msg : list Z) : list Z :=
  let len := Z.of_nat (length msg) in
  msg ++ [128] ++ repeat 0 (Z.to_nat ((55 - len) mod 64))
      ++ be_bytes 8 (8 * len).

(** Sixteen big-endian words of a 64-byte block. *)
Definition block_words (block : list Z) : list Z :=
  map (fun i => from_bytes (firstn 4 (skipn (4 * i) block))) (seq 0 16).

Fixpoint schedule (n : nat) (w : list Z) : list Z :=
  match n with
  | O => w
  | S n' =>
      let t := length w in
      let at_ k := nth (t - k) w 0 in
      schedule n'
        (w ++ [add32 (add32 (sigma1 (at_ 2%nat)) (at_ 7%nat))
                     (add32 (sigma0 (at_ 15%nat)) (at_ 16%nat))])
  end.

Definition round (s : state) (kw : Z * Z) : state :=
  let (k, w) := kw in
  let t1 := add32 (add32 (add32 (wh s) (Sigma1 (we s)))
                         (add32 (Ch (we s) (wf s) (wg s)) k)) w in
  let t2 := add32 (Sigma0 (wa s)) (Maj (wa s) (wb s) (wc s)) in
  mk_state (add32 t1 t2) (wa s) (wb s) (wc s)
           (add32 (wd s) t1) (we s) (wf s) (wg s).

Definition compress (h : state) (block : list Z) : state :=
  let w := schedule 48 (block_words block) in
  let s := fold_left round (combine round_constants w) h in
  mk_state (add32 (wa h) (wa s)) (add32 (wb h) (wb s))
           (add32 (wc h) (wc s)) (add32 (wd h) (wd s))
           (add32 (we h) (we s)) (add32 (wf h) (wf s))
           (add32 (wg h) (wg s)) (add32 (wh h) (wh s)).

Fixpoint absorb (n : nat) (bs : list Z) (h : state) : state :=
  match n with
  | O => h
  | S n' => absorb n' (skipn 64 bs) (compress h (firstn 64 bs))
  end.

Definition output (h : state) : list Z :=
  flat_map (be_bytes 4)
    [wa h; wb h; wc h; wd h; we h; wf h; wg h; wh h].

(** [hashlib.sha256(data).digest()]. *)
Definition digest (data : list Z) : list Z :=
  let padded := pad data in
  output (absorb (length padded / 64) padded initial_state).

End Sha256.

(** ** Text and the UTF-8 codec

    A Python [str] is a sequence of code points; [len] counts code points. *)
Definition str : Type := list Z.

Definition REPLACEMENT_CHARACTER : Z := 65533.

(** UTF-8 encoding of one code point, as [str.encode()] does it: the
    surrogates [U+D800..U+DFFF] raise [UnicodeEncodeError]; values outside
    [0, 0x110000) are not code points at all. *)
Definition encode_code_point (c : Z) : option (list Z) :=
  if c <? 0 then None
  else if c <? 128 then Some [c]
  else if c <? 2048 then Some [192 + c / 64; 128 + c mod 64]
  else if c <? 65536 then
    if (55296 <=? c) && (c <=? 57343) then None
    else Some [224 + c / 4096; 128 + (c / 64) mod 64; 128 + c mod 64]
  else if c <? 1114112 then
    Some [240 + c / 262144; 128 + (c / 4096) mod 64;
          128 + (c / 64) mod 64; 128 + c mod 64]
  else None.

(** [s.encode()] (UTF-8, strict). [None] stands for the raised exception. *)
Fixpoint utf8_encode (s : str) : option (list Z) :=
  match s with
  | [] => Some []
  | c :: s' =>
      match encode_code_point c, utf8_encode s' with
      | Some bs, Some rest => Some (bs ++ rest)
      | _, _ => None
      end
  end.

(** The [errors] argument of [bytes.decode]. *)
Inductive error_handler : Type := Strict | Replace.

Definition is_continuation (b : Z) : bool := (128 <=? b) && (b <? 192).

(** What the decoder does at an ill-formed sequence: with [Strict] it raises
    [UnicodeDecodeError]; with [Replace] it emits [U+FFFD] and resumes at
    [resume] (the end of the offending bytes). *)
Definition on_error (errors : error_handler) (resume : option str) : option str :=
  match errors with
  | Strict => None
  | Replace => option_map (cons REPLACEMENT_CHARACTER) resume
  end.

(** [bs.decode('utf-8', errors=...)], after CPython's decoder: shortest-form
    and surrogate checks on the second byte, one replacement per maximal
    ill-formed prefix, a truncated sequence at the end of the input replaced
    as a whole. [None] stands for [UnicodeDecodeError]. *)
Fixpoint utf8_decode (errors : error_handler) (s : list Z) {struct s} : option str :=
  match s with
  | [] => Some []
  | ch :: s1 =>
      if ch <? 128 then option_map (cons ch) (utf8_decode errors s1)
      else if ch <? 194 then on_error errors (utf8_decode errors s1)
      else if ch <? 224 then
        match s1 with
        | [] => on_error errors (Some [])
        | ch2 :: s2 =>
            if is_continuation ch2 then
              option_map (cons ((ch mod 32) * 64 + ch2 mod 64))
                         (utf8_decode errors s2)
            else on_error errors (utf8_decode errors s1)
        end
      else if ch <? 240 then
        match s1 with
        | [] => on_error errors (Some [])
        | ch2 :: s2 =>
            if negb (is_continuation ch2)
               || (if ch2 <? 160 then ch =? 224 else ch =? 237)
            then on_error errors (utf8_decode errors s1)
            else
              match s2 with
              | [] => on_error errors (Some [])
              | ch3 :: s3 =>
                  if is_continuation ch3 then
                    option_map
                      (cons ((ch mod 16) * 4096 + (ch2 mod 64) * 64 + ch3 mod 64))
                      (utf8_decode errors s3)
                  else on_error errors (utf8_decode errors s2)
              end
        end
      else if ch <? 245 then
        match s1 with
        | [] => on_error errors (Some [])
        | ch2 :: s2 =>
            if negb (is_continuation ch2)
               || (if ch2 <? 144 then ch =? 240 else ch =? 244)
            then on_error errors (utf8_decode errors s1)
            else
              match s2 with
              | [] => on_error errors (Some [])
              | ch3 :: s3 =>
                  if is_continuation ch3 then
                    match s3 with
                    | [] => on_error errors (Some [])
                    | ch4 :: s4 =>
                        if is_continuation ch4 then
                          option_map
                            (cons ((ch mod 8) * 262144 + (ch2 mod 64) * 4096
                                   + (ch3 mod 64) * 64 + ch4 mod 64))
                            (utf8_decode errors s4)
                        else on_error errors (utf8_decode errors s3)
                    end
                  else on_error errors (utf8_decode errors s2)
              end
        end
      else on_error errors (utf8_decode errors s1)
  end.

(** ** Bit strings

    The module holds bits in strings over ['0'] and ['1']; here a bit string
    is a [list bool], most significant bit first inside a byte. *)

(** [format(byte, '08b')] for a byte. *)
Definition format_08b (byte : Z) : list bool :=
  map (fun k => Z.testbit byte (Z.of_nat k)) (rev (seq 0 8)).

(** [int(bits, 2)]. *)
Definition int2 (bits : list bool) : Z :=
  fold_left (fun acc b => 2 * acc + Z.b2z b) bits 0.

(** The slice [s[i:j]]. *)
Definition slice {A : Type} (i j : nat) (s : list A) : list A :=
  firstn (j - i) (skipn i s).

(** [range(0, n, 8)]. *)
Definition range8 (n : nat) : list nat :=
  map (fun k => (8 * k)%nat) (seq 0 ((n + 7) / 8)).

(** [''.join(format(byte, '08b') for byte in data)]. *)
Definition to_binary (data : list Z) : list bool := flat_map format_08b data.

(** The loops [for i in range(0, n, 8): out.append(int(bits[i:i+8], 2))] of
    the decoder; the guard [i + 8 <= len(bits)] of the last of them is kept
    as a filter. *)
Definition bytes_at (n : nat) (bits : list bool) : list Z :=
  map (fun i => int2 (slice i (i + 8) bits)) (range8 n).

Definition full_bytes (bits : list bool) : list Z :=
  map (fun i => int2 (slice i (i + 8) bits))
      (filter (fun i => (i + 8 <=? length bits)%nat) (range8 (length bits))).

(** ** The carrier *)

(** The array [cv2.imread] returns: rows of pixels of channel values. *)
Definition image : Type := list (list (list Z)).

(** [img.shape]. *)
Definition height (img : image) : nat := length img.
Definition width (img : image) : nat := length (hd [] img).
Definition channels (img : image) : nat := length (hd [] (hd [] img)).

(** An array is rectangular. *)
Definition well_shaped (img : image) : Prop :=
  Forall (fun row => length row = width img
                     /\ Forall (fun px => length px = channels img) row) img.

(** Channel values are 8-bit. *)
Definition valid_carrier (img : image) : Prop :=
  Forall (Forall (Forall is_byte)) img.

(** The channel values in the order the loops visit them: rows, then
    columns, then channels. *)
Definition bit_plane (img : image) : list Z := concat (concat img).

(** [rows] by [cols] pixels of [chans] channels, all equal to [v]. *)
Definition uniform_image (rows cols chans : nat) (v : Z) : image :=
  repeat (repeat (repeat v chans) cols) rows.

(** ** Key stream *)

Definition STEGO : list Z := [83; 84; 69; 71; 79].

(** [for i, char in enumerate(data): out.append(char ^ key[i % len(key)])]. *)
Definition xor_key (key data : list Z) : list Z :=
  map (fun ic => Z.lxor (snd ic) (nth (fst ic mod length key) key 0))
      (combine (seq 0 (length data)) data).

(** ** [encode_message] *)

(** [(v & 0xFE) | bit]. *)
Definition set_lsb (v : Z) (bit : bool) : Z := Z.lor (Z.land v 254) (Z.b2z bit).

(** The innermost loop, over the channels of one pixel: writes while
    [data_index < len(binary_data)], and [break]s out of the pixel
    otherwise. *)
Fixpoint embed_pixel (binary_data : list bool) (px : list Z) (data_index : nat)
  : list Z * nat :=
  match px with
  | [] => ([], data_index)
  | v :: rest =>
      match nth_error binary_data data_index with
      | Some bit =>
          let (rest', i') := embed_pixel binary_data rest (S data_index) in
          (set_lsb v bit :: rest', i')
      | None => (px, data_index)
      end
  end.

(** An enclosing [for] loop threading [data_index]. *)
Fixpoint for_each {A : Type} (body : A -> nat -> A * nat) (xs : list A)
  (data_index : nat) : list A * nat :=
  match xs with
  | [] => ([], data_index)
  | x :: rest =>
      let (x', i1) := body x data_index in
      let (rest', i2) := for_each body rest i1 in
      (x' :: rest', i2)
  end.

Definition embed (binary_data : list bool) (img : image) : image :=
  fst (for_each (for_each (embed_pixel binary_data)) img 0%nat).

(** How [encode_message] ends: it saved the image and returned [True], or
    it printed the capacity error, or an exception reached the handler; the
    last two return [False]. *)
Inductive encode_outcome : Type :=
| Encoded
| MessageTooLong (max_bytes : Z)
| EncodingError.

(** What is left when the function returns: the outcome, the array [img] in
    memory and what [cv2.imwrite] put at [output_path], if it ran. *)
Record encode_exit : Type := mk_encode_exit
  { outcome : encode_outcome;
    img_after : image;
    output_file : option image }.

(** [(height * width * 3) // 8 - 64]. *)
Definition max_bytes (img : image) : Z :=
  (Z.of_nat (height img) * Z.of_nat (width img) * 3) / 8 - 64.

Definition encode_message (img : image) (message password : str) : encode_exit :=
  let message_length := Z.of_nat (length message) in
  if message_length >? max_bytes img then
    mk_encode_exit (MessageTooLong (max_bytes img)) img None
  else
    match utf8_encode password with
    | None => mk_encode_exit EncodingError img None
    | Some password_bytes =>
        let key := Sha256.digest password_bytes in
        match utf8_encode message with
        | None => mk_encode_exit EncodingError img None
        | Some message_bytes =>
            let encrypted_message := xor_key key message_bytes in
            match to_bytes4 (Z.of_nat (length encrypted_message)) with
            | None => mk_encode_exit EncodingError img None
            | Some length_bytes =>
                let header := STEGO ++ length_bytes in
                let data_to_hide := header ++ encrypted_message in
                let binary_data := to_binary data_to_hide in
                let img' := embed binary_data img in
                mk_encode_exit Encoded img' (Some img')
            end
        end
    end.

(** ** [decode_message] *)

(** How [decode_message] ends: the decoded text, or [None] after one of its
    three messages (wrong password, no message detected, exception). *)
Inductive decode_result : Type :=
| Decoded (message : str)
| LikelyWrongPassword
| NotFound
| DecodingError.

(** The tail of the loop body, once the header and the length are accepted
    and enough bits are there: the ciphertext is cut out, decrypted and
    decoded as text. *)
Definition decrypt_message (password : str) (encrypted_message : list Z)
  : decode_result :=
  match utf8_encode password with
  | None => DecodingError
  | Some password_bytes =>
      let key := Sha256.digest password_bytes in
      let decrypted_bytes := xor_key key encrypted_message in
      match utf8_decode Replace decrypted_bytes with
      | Some decrypted_message => Decoded decrypted_message
      | None => LikelyWrongPassword
      end
  end.

(** The structural part of the loop body on the bits accumulated so far:
    [None] is a [continue], [Some c] the ciphertext of an accepted frame.
    [total] is [height * width * channels]. *)
Definition parse_frame (total : nat) (extracted_bits : list bool)
  : option (list Z) :=
  if (72 <=? length extracted_bits)%nat then
    let header_bytes := bytes_at 40 extracted_bits in
    if list_eq_dec Z.eq_dec header_bytes STEGO then
      let length_bits := slice 40 72 extracted_bits in
      let message_length_bytes := bytes_at 32 length_bits in
      let message_length := from_bytes message_length_bytes in
      if (message_length <=? 0) || (message_length >? Z.of_nat total / 8) then
        None
      else
        let bits_needed := message_length * 8 in
        let total_bits_needed := 72 + bits_needed in
        if Z.of_nat (length extracted_bits) <? total_bits_needed then None
        else
          let message_bits :=
            slice 72 (Z.to_nat total_bits_needed) extracted_bits in
          Some (full_bytes message_bits)
    else None
  else None.

(** The loop body after a bit was appended: [None] is a [continue],
    [Some r] a [return]. *)
Definition attempt (total : nat) (password : str) (extracted_bits : list bool)
  : option decode_result :=
  option_map (decrypt_message password) (parse_frame total extracted_bits).

(** The innermost loop over the channels of one pixel: append the least
    significant bit, run the body, stop at the first [return]. *)
Fixpoint scan_pixel (total : nat) (password : str) (px : list Z)
  (extracted_bits : list bool) : list bool * option decode_result :=
  match px with
  | [] => (extracted_bits, None)
  | v :: rest =>
      let extracted_bits' := extracted_bits ++ [Z.land v 1 =? 1] in
      match attempt total password extracted_bits' with
      | Some r => (extracted_bits', Some r)
      | None => scan_pixel total password rest extracted_bits'
      end
  end.

(** An enclosing [for] loop: a [return] inside leaves it at once. *)
Fixpoint scan_each {A : Type}
  (body : A -> list bool -> list bool * option decode_result)
  (xs : list A) (extracted_bits : list bool)
  : list bool * option decode_result :=
  match xs with
  | [] => (extracted_bits, None)
  | x :: rest =>
      match body x extracted_bits with
      | (bits', Some r) => (bits', Some r)
      | (bits', None) => scan_each body rest bits'
      end
  end.

(** The three nested loops: the bits accumulated when the function leaves
    them, and the value returned from inside, if any. *)
Definition scan (img : image) (password : str)
  : list bool * option decode_result :=
  let total := (height img * width img * channels img)%nat in
  scan_each (scan_each (scan_pixel total password)) img [].

Definition decode_message (img : image) (password : str) : decode_result :=
  match snd (scan img password) with
  | Some r => r
  | None => NotFound
  end.

(** ** The bit plane as one sequence

    Specification-level views used by the statements below. *)

(** The least significant bits of a sequence of channel values. *)
Definition lsbs (vs : list Z) : list bool := map (fun v => Z.land v 1 =? 1) vs.

(** Writing a bit string over the first channel values of a sequence. *)
Fixpoint write_bits (bits : list bool) (vs : list Z) : list Z :=
  match bits, vs with
  | b :: bits', v :: vs' => set_lsb v b :: write_bits bits' vs'
  | _, _ => vs
  end.

(** [k] consecutive groups of [n] elements. *)
Fixpoint chunks {A : Type} (n k : nat) (l : list A) : list (list A) :=
  match k with
  | O => []
  | S k' => firstn n l :: chunks n k' (skipn n l)
  end.

(** A [rows] by [cols] three-channel carrier whose channel values are the
    given bits, then zeros. *)
Definition carrier_of_lsbs (rows cols : nat) (bits : list bool) : image :=
  chunks cols rows
    (chunks 3 (rows * cols)
       (map Z.b2z bits ++ repeat 0 (rows * cols * 3 - length bits)%nat)).

(** ** Test vectors *)

Definition carrier_10x10x3 : image := uniform_image 10 10 3 0.
Definition carrier_10x18x3 : image := uniform_image 10 18 3 0.
Definition text_hi : str := [104; 105].
Definition password_pw : str := [112; 119].
Definition password_xx : str := [120; 120].

(** The frame for ["hi"] under ["pw"], and a carrier holding it one byte
    late. *)
Definition frame_hi_pw : list Z :=
  STEGO ++ [0; 0; 0; 2] ++ xor_key (Sha256.digest [112; 119]) [104; 105].
Definition carrier_shifted : image :=
  carrier_of_lsbs 10 18 (repeat false 8 ++ to_binary frame_hi_pw).

(** The bytes [encode_message] hides for a message whose UTF-8 bytes are
    [message_bytes], under [key]: [data_to_hide]. *)
Definition frame (key message_bytes : list Z) : list Z :=
  (STEGO ++ be_bytes 4 (Z.of_nat (length (xor_key key message_bytes))))
    ++ xor_key key message_bytes.

(** The first 80 bits of that frame: the header and one payload byte. *)
Definition bits_80 : list bool := firstn 80 (to_binary frame_hi_pw).

(** ** [binary_to_string] *)

(** The helper of the module that turns a bit string into text: one
    character [chr(int(byte, 2))] for each full group of eight bits. *)
Definition binary_to_string (binary : list bool) : str :=
  map (fun i => int2 (slice i (i + 8) binary))
      (filter (fun i => (i + 8 <=? length binary)%nat)
              (range8 (length binary))).

(** ** [main]

    The two commands of the command line, for an image file that can be
    read; what the user types at the prompts is an argument. *)

(** The value [decode_message] hands back: the text, or [None]. *)
Definition returned (r : decode_result) : option str :=
  match r with
  | Decoded s => Some s
  | _ => None
  end.

(** The truth value of [message] in [if message:] and [if not message:]. *)
Definition truthy (v : option str) : bool :=
  match v with
  | Some (_ :: _) => true
  | _ => false
  end.

(** The [decode] command: [true] when it prints "Decryption successful!",
    [false] when it prints "Failed to decode any message". *)
Definition main_decode (img : image) (typed_password : str) : bool :=
  truthy (returned (decode_message img typed_password)).

(** The [encode] command: the message of the [-m] option, or the one typed
    at the prompt when the option is absent or empty. *)
Definition main_encode (img : image) (args_message : option str)
  (typed_message typed_password : str) : encode_exit :=
  let message :=
    match args_message with
    | Some (c :: s) => c :: s
    | _ => typed_message
    end in
  encode_message img message typed_password.

(** ** Further test vectors *)

(** The frame of ["hi"] under ["pw"] followed by ones. *)
Definition carrier_noisy_tail : image :=
  carrier_of_lsbs 10 18 (to_binary frame_hi_pw ++ repeat true 452).

(** A header announcing 100 payload bytes in a carrier of 540 channels. *)
Definition carrier_overlong : image :=
  carrier_of_lsbs 10 18 (to_binary (STEGO ++ [0; 0; 0; 100]) ++ repeat true 100).

(** Twenty-one times U+1F600, four bytes each in UTF-8. *)
Definition text_emoji : str := repeat 128512 21.
Definition carrier_10x24x3 : image := uniform_image 10 24 3 0.

(** A lone surrogate, which has no UTF-8 encoding. *)
Definition text_surrogate : str := [104; 55296].

(** * Properties *)

(** ** Bytes, bits and integers *)

Lemma format_08b_length (b : Z) : length (format_08b b) = 8%nat.
Proof. reflexivity. Qed.

Lemma int2_format_08b (b : Z) : is_byte b -> int2 (format_08b b) = b.
Proof.
  intros Hb. unfold is_byte in Hb. unfold format_08b, int2. cbn [seq rev app map fold_left].
  rewrite !Z.testbit_spec' by lia.
  change (Z.of_nat 0) with 0. change (Z.of_nat 1) with 1.
  change (Z.of_nat 2) with 2. change (Z.of_nat 3) with 3.
  change (Z.of_nat 4) with 4. change (Z.of_nat 5) with 5.
  change (Z.of_nat 6) with 6. change (Z.of_nat 7) with 7.
  change (2 ^ 0) with 1. change (2 ^ 1) with 2. change (2 ^ 2) with 4.
  change (2 ^ 3) with 8. change (2 ^ 4) with 16. change (2 ^ 5) with 32.
  change (2 ^ 6) with 64. change (2 ^ 7) with 128.
  Z.div_mod_to_equations. lia.
Qed.

Lemma be_bytes_length (k : nat) (n : Z) : length (be_bytes k n) = k.
Proof. unfold be_bytes. now rewrite length_map, length_rev, length_seq. Qed.

Lemma be_bytes_range (k : nat) (n : Z) : Forall is_byte (be_bytes k n).
Proof.
  unfold be_bytes. apply Forall_forall. intros b Hb.
  apply in_map_iff in Hb. destruct Hb as [i [<- _]].
  unfold is_byte. apply Z.mod_pos_bound. lia.
Qed.

Lemma from_bytes_be_bytes4 (n : Z) :
  0 <= n < 2 ^ 32 -> from_bytes (be_bytes 4 n) = n.
Proof.
  intros Hn. unfold be_bytes, from_bytes. cbn [seq rev app map fold_left].
  change (Z.of_nat 0) with 0. change (Z.of_nat 1) with 1.
  change (Z.of_nat 2) with 2. change (Z.of_nat 3) with 3.
  change (256 ^ 0) with 1. change (256 ^ 1) with 256.
  change (256 ^ 2) with 65536. change (256 ^ 3) with 16777216.
  change (2 ^ 32) with 4294967296 in Hn.
  Z.div_mod_to_equations. lia.
Qed.

Lemma to_bytes4_some (n : Z) :
  0 <= n < 2 ^ 32 -> to_bytes4 n = Some (be_bytes 4 n).
Proof.
  intros [H0 H1]. unfold to_bytes4.
  apply Z.leb_le in H0. apply Z.ltb_lt in H1. now rewrite H0, H1.
Qed.

Lemma to_binary_length (bs : list Z) :
  length (to_binary bs) = (8 * length bs)%nat.
Proof.
  unfold to_binary. induction bs as [|b bs IH]; [reflexivity|].
  cbn [flat_map]. rewrite length_app, IH, format_08b_length. cbn [length]. lia.
Qed.

Lemma to_binary_app (xs ys : list Z) :
  to_binary (xs ++ ys) = to_binary xs ++ to_binary ys.
Proof. unfold to_binary. apply flat_map_app. Qed.

Lemma range8_mul (k : nat) :
  range8 (8 * k) = map (fun j => (8 * j)%nat) (seq 0 k).
Proof.
  unfold range8. replace ((8 * k + 7) / 8)%nat with k; [reflexivity|].
  apply Nat.div_unique with (r := 7%nat); lia.
Qed.

Lemma slice_after_prefix {A : Type} (pre body rest : list A) (i n : nat) :
  length pre = i -> length body = n ->
  slice i (i + n) (pre ++ body ++ rest) = body.
Proof.
  intros Hi Hn. unfold slice.
  replace (i + n - i)%nat with n by lia.
  rewrite skipn_app, skipn_all2 by lia.
  replace (i - length pre)%nat with 0%nat by lia. cbn [skipn app].
  rewrite firstn_app, firstn_all2 by lia.
  replace (n - length body)%nat with 0%nat by lia.
  cbn [firstn]. apply app_nil_r.
Qed.

Lemma filter_all {A : Type} (f : A -> bool) (l : list A) :
  (forall x, In x l -> f x = true) -> filter f l = l.
Proof.
  induction l as [|x l IH]; intros H; [reflexivity|].
  cbn [filter]. rewrite (H x) by now left.
  f_equal. apply IH. intros y Hy. apply H. now right.
Qed.

(** Reading back, byte by byte, a bit string that was produced from bytes,
    wherever it sits in a longer string. *)
Lemma bytes_at_window (bs : list Z) :
  Forall is_byte bs ->
  forall (m : nat) (pre rest : list bool),
    length pre = (8 * m)%nat ->
    map (fun j => int2 (slice (8 * j) (8 * j + 8) (pre ++ to_binary bs ++ rest)))
        (seq m (length bs)) = bs.
Proof.
  induction 1 as [|b bs Hb Hbs IH]; intros m pre rest Hpre; [reflexivity|].
  cbn [length seq map]. f_equal.
  - change (to_binary (b :: bs)) with (format_08b b ++ to_binary bs).
    rewrite <- app_assoc.
    rewrite slice_after_prefix by (auto using format_08b_length).
    now apply int2_format_08b.
  - change (to_binary (b :: bs)) with (format_08b b ++ to_binary bs).
    rewrite <- (IH (S m) (pre ++ format_08b b) rest) at 2.
    + apply map_ext. intros j. now rewrite <- !app_assoc.
    + rewrite length_app, format_08b_length. lia.
Qed.

Lemma bytes_at_to_binary (bs : list Z) (rest : list bool) :
  Forall is_byte bs ->
  bytes_at (8 * length bs) (to_binary bs ++ rest) = bs.
Proof.
  intros Hbs. unfold bytes_at. rewrite range8_mul, map_map.
  exact (bytes_at_window bs Hbs 0%nat [] rest eq_refl).
Qed.

Lemma full_bytes_to_binary (bs : list Z) :
  Forall is_byte bs -> full_bytes (to_binary bs) = bs.
Proof.
  intros Hbs. unfold full_bytes.
  rewrite to_binary_length, range8_mul, filter_all.
  - rewrite map_map.
    rewrite <- (app_nil_r (to_binary bs)).
    exact (bytes_at_window bs Hbs 0%nat [] [] eq_refl).
  - intros i Hi. apply in_map_iff in Hi. destruct Hi as [j [<- Hj]].
    apply in_seq in Hj. apply Nat.leb_le. lia.
Qed.

(** ** Key stream *)

Lemma digest_length (data : list Z) : length (Sha256.digest data) = 32%nat.
Proof.
  unfold Sha256.digest, Sha256.output. cbn [flat_map].
  rewrite !length_app, !be_bytes_length. reflexivity.
Qed.

Lemma digest_range (data : list Z) : Forall is_byte (Sha256.digest data).
Proof.
  unfold Sha256.digest, Sha256.output. cbn [flat_map].
  repeat (apply Forall_app; split); auto using be_bytes_range.
Qed.

Lemma lxor_byte (a b : Z) : is_byte a -> is_byte b -> is_byte (Z.lxor a b).
Proof.
  unfold is_byte. intros Ha Hb.
  assert (H0 : 0 <= Z.lxor a b) by (apply Z.lxor_nonneg; lia).
  split; [exact H0|].
  destruct (Z.eq_dec (Z.lxor a b) 0) as [E|E]; [lia|].
  change 256 with (2 ^ 8). apply Z.log2_lt_pow2; [lia|].
  eapply Z.le_lt_trans; [apply Z.log2_lxor; lia|].
  apply Z.max_lub_lt.
  - destruct (Z.eq_dec a 0) as [->|Na]; [cbn; lia|].
    apply Z.log2_lt_pow2; [lia|]. change (2 ^ 8) with 256. lia.
  - destruct (Z.eq_dec b 0) as [->|Nb]; [cbn; lia|].
    apply Z.log2_lt_pow2; [lia|]. change (2 ^ 8) with 256. lia.
Qed.

Section KeyStream.

Variable key : list Z.

(** The XOR pass starting at an arbitrary stream position. *)
Let pass (s : nat) (data : list Z) : list Z :=
  map (fun ic => Z.lxor (snd ic) (nth (fst ic mod length key) key 0))
      (combine (seq s (length data)) data).

Lemma pass_length (s : nat) (data : list Z) :
  length (pass s data) = length data.
Proof.
  unfold pass. rewrite length_map, length_combine, length_seq. lia.
Qed.

Lemma pass_involutive (data : list Z) :
  forall s, pass s (pass s data) = data.
Proof.
  induction data as [|x data IH]; intros s; [reflexivity|].
  unfold pass in *. cbn [length seq combine map fst snd].
  f_equal.
  - rewrite Z.lxor_assoc, Z.lxor_nilpotent. apply Z.lxor_0_r.
  - apply IH.
Qed.

Lemma pass_range (data : list Z) :
  Forall is_byte key -> key <> [] -> Forall is_byte data ->
  forall s, Forall is_byte (pass s data).
Proof.
  intros Hkey Hne. induction 1 as [|x data Hx Hd IH]; intros s.
  - constructor.
  - unfold pass in *. cbn [length seq combine map fst snd]. constructor.
    + apply lxor_byte; [exact Hx|].
      rewrite Forall_forall in Hkey. apply Hkey. apply nth_In.
      apply Nat.mod_upper_bound. destruct key; [congruence|discriminate].
    + apply IH.
Qed.

Lemma xor_key_length (data : list Z) :
  length (xor_key key data) = length data.
Proof. exact (pass_length 0 data). Qed.

Lemma xor_key_involutive (data : list Z) :
  xor_key key (xor_key key data) = data.
Proof. exact (pass_involutive data 0%nat). Qed.

Lemma xor_key_range (data : list Z) :
  Forall is_byte key -> key <> [] -> Forall is_byte data ->
  Forall is_byte (xor_key key data).
Proof. intros Hk Hne Hd. exact (pass_range data Hk Hne Hd 0%nat). Qed.

End KeyStream.

Lemma digest_nonempty (data : list Z) : Sha256.digest data <> [].
Proof.
  intros E. pose proof (digest_length data) as H. rewrite E in H. discriminate.
Qed.

(** ** The UTF-8 codec *)

Ltac z_arith := Z.div_mod_to_equations; lia.

(** Settles the comparisons of a goal whose outcome follows from the
    hypotheses by linear arithmetic. *)
Ltac decide_tests :=
  repeat (match goal with
          | |- context [?a <? ?b] =>
              destruct (Z.ltb_spec a b); [try (exfalso; z_arith)|try (exfalso; z_arith)]
          | |- context [?a <=? ?b] =>
              destruct (Z.leb_spec a b); [try (exfalso; z_arith)|try (exfalso; z_arith)]
          | |- context [?a =? ?b] =>
              destruct (Z.eqb_spec a b); [try (exfalso; z_arith)|try (exfalso; z_arith)]
          end; cbn [negb orb andb]; cbv iota).

Lemma some_inj {A : Type} (x y : A) : Some x = Some y -> x = y.
Proof. congruence. Qed.

Lemma encode_code_point_range (c : Z) (bs : list Z) :
  encode_code_point c = Some bs -> Forall is_byte bs /\ bs <> [].
Proof.
  unfold encode_code_point, is_byte.
  destruct (Z.ltb_spec c 0); [discriminate|].
  destruct (Z.ltb_spec c 128).
  { intros E; apply some_inj in E; subst bs. split; [|discriminate]. repeat (apply Forall_cons; [lia|]); apply Forall_nil. }
  destruct (Z.ltb_spec c 2048).
  { intros E; apply some_inj in E; subst bs. split; [|discriminate]. repeat (apply Forall_cons; [z_arith|]); apply Forall_nil. }
  destruct (Z.ltb_spec c 65536).
  { destruct ((55296 <=? c) && (c <=? 57343)); [discriminate|].
    intros E; apply some_inj in E; subst bs. split; [|discriminate]. repeat (apply Forall_cons; [z_arith|]); apply Forall_nil. }
  destruct (Z.ltb_spec c 1114112); [|discriminate].
  intros E; apply some_inj in E; subst bs. split; [|discriminate]. repeat (apply Forall_cons; [z_arith|]); apply Forall_nil.
Qed.

(** The decoder reads back what the encoder wrote for one code point. *)
Lemma decode_encode_code_point (errors : error_handler) (c : Z) (bs rest : list Z) :
  encode_code_point c = Some bs ->
  utf8_decode errors (bs ++ rest) = option_map (cons c) (utf8_decode errors rest).
Proof.
  unfold encode_code_point.
  destruct (Z.ltb_spec c 0); [discriminate|].
  destruct (Z.ltb_spec c 128).
  { intros E; apply some_inj in E; subst bs. cbn [app utf8_decode]. decide_tests. reflexivity. }
  destruct (Z.ltb_spec c 2048).
  { intros E; apply some_inj in E; subst bs. cbn [app utf8_decode]. unfold is_continuation.
    decide_tests; do 2 f_equal; z_arith. }
  destruct (Z.ltb_spec c 65536).
  { destruct (Z.leb_spec 55296 c); destruct (Z.leb_spec c 57343);
      cbn [andb]; try discriminate;
      intros E; apply some_inj in E; subst bs; cbn [app utf8_decode]; unfold is_continuation;
      decide_tests; do 2 f_equal; z_arith. }
  destruct (Z.ltb_spec c 1114112); [|discriminate].
  intros E; apply some_inj in E; subst bs. cbn [app utf8_decode]. unfold is_continuation.
  decide_tests; do 2 f_equal; z_arith.
Qed.

Lemma utf8_round_trip (errors : error_handler) (s : str) (bs : list Z) :
  utf8_encode s = Some bs -> utf8_decode errors bs = Some s.
Proof.
  revert bs. induction s as [|c s IH]; intros bs.
  - intros [= <-]. reflexivity.
  - cbn [utf8_encode].
    destruct (encode_code_point c) as [cb|] eqn:Ec; [|discriminate].
    destruct (utf8_encode s) as [rest|]; [|discriminate].
    intros [= <-].
    rewrite (decode_encode_code_point errors c cb rest Ec).
    now rewrite (IH rest eq_refl).
Qed.

Lemma utf8_encode_range (s : str) (bs : list Z) :
  utf8_encode s = Some bs -> Forall is_byte bs.
Proof.
  revert bs. induction s as [|c s IH]; intros bs.
  - intros [= <-]. constructor.
  - cbn [utf8_encode].
    destruct (encode_code_point c) as [cb|] eqn:Ec; [|discriminate].
    destruct (utf8_encode s) as [rest|]; [|discriminate].
    intros [= <-]. apply Forall_app. split.
    + now apply (encode_code_point_range c).
    + now apply IH.
Qed.

Lemma utf8_encode_nonempty (s : str) (bs : list Z) :
  utf8_encode s = Some bs -> s <> [] -> bs <> [].
Proof.
  destruct s as [|c s]; [congruence|]. cbn [utf8_encode].
  destruct (encode_code_point c) as [cb|] eqn:Ec; [|discriminate].
  destruct (utf8_encode s) as [rest|]; [|discriminate].
  intros [= <-] _ E. apply app_eq_nil in E.
  now apply (encode_code_point_range c cb Ec).
Qed.

(** With [errors='replace'] the decoder returns a string on every input. *)
Lemma utf8_decode_replace_total (s : list Z) :
  exists t, utf8_decode Replace s = Some t.
Proof.
  assert (H : forall n s, (length s <= n)%nat ->
                          exists t, utf8_decode Replace s = Some t).
  { clear s. induction n as [|n IH]; intros s Hs.
    - destruct s; [now exists []|cbn in Hs; lia].
    - destruct s as [|ch s1]; [now exists []|].
      cbn [utf8_decode]. unfold on_error.
      repeat match goal with
             | |- context [if ?c then _ else _] => destruct c
             | |- context [match ?l with [] => _ | _ :: _ => _ end] =>
                 destruct l
             end;
        cbn [option_map];
        try (eexists; reflexivity);
        match goal with
        | |- context [utf8_decode Replace ?x] =>
            destruct (IH x) as [t Ht];
            [cbn [length] in *; lia|rewrite Ht; cbn [option_map]; eexists; reflexivity]
        end. }
  exact (H (length s) s (le_n _)).
Qed.

(** ** The embedding loops on the bit plane *)

Lemma lsb_set_lsb (v : Z) (b : bool) : (Z.land (set_lsb v b) 1 =? 1) = b.
Proof.
  unfold set_lsb. rewrite Z.land_lor_distr_l, <- Z.land_assoc.
  change (Z.land 254 1) with 0. rewrite Z.land_0_r, Z.lor_0_l.
  now destruct b.
Qed.

(** A property checked on the 256 bytes holds of every byte. *)
Lemma byte_cases (f : Z -> bool) :
  forallb f (map Z.of_nat (seq 0 256)) = true ->
  forall v, is_byte v -> f v = true.
Proof.
  intros H v Hv. rewrite forallb_forall in H. apply H.
  apply in_map_iff. exists (Z.to_nat v). unfold is_byte in Hv.
  split; [lia|]. apply in_seq. lia.
Qed.

Lemma set_lsb_upper_bits (v : Z) (b : bool) :
  is_byte v -> Z.shiftr (set_lsb v b) 1 = Z.shiftr v 1.
Proof.
  intros Hv. apply Z.eqb_eq. revert v Hv.
  destruct b; apply byte_cases; vm_compute; reflexivity.
Qed.

Lemma set_lsb_byte (v : Z) (b : bool) : is_byte v -> is_byte (set_lsb v b).
Proof.
  intros Hv. unfold is_byte.
  enough (H : ((0 <=? set_lsb v b) && (set_lsb v b <? 256)) = true).
  { apply andb_true_iff in H. destruct H as [H0 H1].
    apply Z.leb_le in H0. apply Z.ltb_lt in H1. lia. }
  revert v Hv. destruct b; apply byte_cases; vm_compute; reflexivity.
Qed.

Lemma embed_pixel_exhausted (binary_data : list bool) (px : list Z) (i : nat) :
  nth_error binary_data i = None -> embed_pixel binary_data px i = (px, i).
Proof. intros H. destruct px as [|v rest]; cbn [embed_pixel]; now rewrite ?H. Qed.

Lemma embed_pixel_app (binary_data : list bool) (a b : list Z) :
  forall i,
    embed_pixel binary_data (a ++ b) i =
    (fst (embed_pixel binary_data a i)
       ++ fst (embed_pixel binary_data b (snd (embed_pixel binary_data a i))),
     snd (embed_pixel binary_data b (snd (embed_pixel binary_data a i)))).
Proof.
  induction a as [|v a IH]; intros i.
  - cbn [app embed_pixel fst snd]. now destruct (embed_pixel binary_data b i).
  - cbn [app embed_pixel].
    destruct (nth_error binary_data i) as [bit|] eqn:E.
    + rewrite IH. destruct (embed_pixel binary_data a (S i)) as [a' i1].
      cbn [fst snd app]. reflexivity.
    + cbn [fst snd]. rewrite (embed_pixel_exhausted binary_data b i E).
      reflexivity.
Qed.

(** An enclosing loop over parts does what the innermost loop does on the
    parts laid end to end. *)
Lemma for_each_flat {A : Type} (binary_data : list bool)
  (flat : A -> list Z) (body : A -> nat -> A * nat) :
  (forall x i, (flat (fst (body x i)), snd (body x i))
               = embed_pixel binary_data (flat x) i) ->
  forall xs i,
    (concat (map flat (fst (for_each body xs i))), snd (for_each body xs i))
    = embed_pixel binary_data (concat (map flat xs)) i.
Proof.
  intros Hbody. induction xs as [|x xs IH]; intros i; [reflexivity|].
  cbn [for_each map concat]. rewrite embed_pixel_app.
  rewrite <- (Hbody x i). destruct (body x i) as [x' i1]. cbn [fst snd].
  rewrite <- (IH i1). destruct (for_each body xs i1) as [xs' i2].
  cbn [fst snd map concat]. reflexivity.
Qed.

Lemma embed_pixel_write (binary_data : list bool) (vs : list Z) :
  forall i,
    fst (embed_pixel binary_data vs i) = write_bits (skipn i binary_data) vs.
Proof.
  induction vs as [|v vs IH]; intros i.
  - cbn [embed_pixel fst]. now destruct (skipn i binary_data).
  - cbn [embed_pixel].
    destruct (nth_error binary_data i) as [bit|] eqn:E.
    + specialize (IH (S i)).
      destruct (embed_pixel binary_data vs (S i)) as [vs' i']. cbn [fst] in *.
      assert (Hs : skipn i binary_data = bit :: skipn (S i) binary_data).
      { clear -E. revert i E.
        induction binary_data as [|b bd IHb]; intros [|i] E; try discriminate.
        - cbn in E. now injection E as ->.
        - cbn [skipn]. apply IHb. exact E. }
      rewrite Hs. cbn [write_bits]. now rewrite IH.
    + cbn [fst]. apply nth_error_None in E.
      rewrite skipn_all2 by lia. reflexivity.
Qed.

Lemma concat_twice {A : Type} (l : list (list (list A))) :
  concat (concat l) = concat (map (@concat A) l).
Proof.
  induction l as [|x l IH]; [reflexivity|].
  cbn [concat map]. now rewrite concat_app, IH.
Qed.

(** The loops of [encode_message] write the bit string over the first
    channel values, in bit-plane order. *)
Lemma bit_plane_embed (binary_data : list bool) (img : image) :
  bit_plane (embed binary_data img) = write_bits binary_data (bit_plane img).
Proof.
  unfold bit_plane, embed.
  assert (Hrow : forall (row : list (list Z)) i,
             (concat (fst (for_each (embed_pixel binary_data) row i)),
              snd (for_each (embed_pixel binary_data) row i))
             = embed_pixel binary_data (concat row) i).
  { intros row i.
    pose proof (for_each_flat binary_data (fun px : list Z => px)
                  (embed_pixel binary_data)
                  (fun x i => eq_sym (surjective_pairing _)) row i) as H.
    now rewrite !map_id in H. }
  pose proof (for_each_flat binary_data (@concat Z)
                (for_each (embed_pixel binary_data)) Hrow img 0%nat) as Himg.
  apply (f_equal fst) in Himg. cbn [fst] in Himg.
  rewrite !concat_twice, Himg.
  exact (embed_pixel_write binary_data _ 0%nat).
Qed.

Lemma write_bits_length (bits : list bool) (vs : list Z) :
  length (write_bits bits vs) = length vs.
Proof.
  revert vs. induction bits as [|b bits IH]; intros [|v vs]; cbn [write_bits length];
    auto.
Qed.

Lemma lsbs_write_bits (bits : list bool) (vs : list Z) :
  (length bits <= length vs)%nat ->
  lsbs (write_bits bits vs) = bits ++ skipn (length bits) (lsbs vs).
Proof.
  revert vs. induction bits as [|b bits IH]; intros vs Hlen.
  - destruct vs; reflexivity.
  - destruct vs as [|v vs]; [cbn in Hlen; lia|].
    cbn [write_bits lsbs map length skipn app]. rewrite lsb_set_lsb.
    f_equal. apply IH. cbn in Hlen. lia.
Qed.

Lemma write_bits_beyond (bits : list bool) (vs : list Z) (i : nat) (d : Z) :
  (length bits <= i)%nat -> nth i (write_bits bits vs) d = nth i vs d.
Proof.
  revert vs i. induction bits as [|b bits IH]; intros vs i Hi.
  - destruct vs; reflexivity.
  - destruct vs as [|v vs]; [reflexivity|].
    destruct i as [|i]; [cbn in Hi; lia|].
    cbn [write_bits nth]. apply IH. cbn in Hi. lia.
Qed.

Lemma write_bits_upper_bits (bits : list bool) (vs : list Z) (i : nat) :
  Forall is_byte vs ->
  Z.shiftr (nth i (write_bits bits vs) 0) 1 = Z.shiftr (nth i vs 0) 1.
Proof.
  intros Hvs. revert bits i.
  induction Hvs as [|v vs Hv Hvs IH]; intros bits i.
  - destruct bits; reflexivity.
  - destruct bits as [|b bits]; [reflexivity|].
    destruct i as [|i]; cbn [write_bits nth].
    + now apply set_lsb_upper_bits.
    + apply IH.
Qed.

(** ** Shapes *)

Lemma for_each_length {A : Type} (body : A -> nat -> A * nat) (xs : list A) :
  forall i, length (fst (for_each body xs i)) = length xs.
Proof.
  induction xs as [|x xs IH]; intros i; [reflexivity|].
  cbn [for_each]. destruct (body x i) as [x' i1].
  specialize (IH i1). destruct (for_each body xs i1) as [xs' i2].
  cbn [fst length] in *. now rewrite IH.
Qed.

Lemma for_each_hd {A : Type} (body : A -> nat -> A * nat) (x d : A)
  (xs : list A) (i : nat) :
  hd d (fst (for_each body (x :: xs) i)) = fst (body x i).
Proof.
  cbn [for_each]. destruct (body x i) as [x' i1].
  now destruct (for_each body xs i1).
Qed.

Lemma embed_pixel_length (binary_data : list bool) (px : list Z) (i : nat) :
  length (fst (embed_pixel binary_data px i)) = length px.
Proof. rewrite embed_pixel_write. apply write_bits_length. Qed.

Lemma embed_height (binary_data : list bool) (img : image) :
  height (embed binary_data img) = height img.
Proof. apply for_each_length. Qed.

Lemma embed_width (binary_data : list bool) (img : image) :
  width (embed binary_data img) = width img.
Proof.
  unfold width, embed. destruct img as [|row img]; [reflexivity|].
  rewrite for_each_hd. cbn [hd]. apply for_each_length.
Qed.

Lemma embed_channels (binary_data : list bool) (img : image) :
  channels (embed binary_data img) = channels img.
Proof.
  unfold channels, embed. destruct img as [|row img]; [reflexivity|].
  rewrite for_each_hd. cbn [hd].
  destruct row as [|px row]; [reflexivity|].
  rewrite for_each_hd. cbn [hd]. apply embed_pixel_length.
Qed.

Lemma concat_uniform_length {A : Type} (n : nat) (l : list (list A)) :
  Forall (fun x => length x = n) l -> length (concat l) = (length l * n)%nat.
Proof.
  induction 1 as [|x l Hx Hl IH]; [reflexivity|].
  cbn [concat length]. rewrite length_app, IH, Hx. lia.
Qed.

(** A rectangular array has [height * width * channels] channel values. *)
Lemma bit_plane_length (img : image) :
  well_shaped img ->
  length (bit_plane img) = (height img * width img * channels img)%nat.
Proof.
  unfold well_shaped, bit_plane, height. intros H.
  rewrite (concat_uniform_length (channels img)).
  - rewrite (concat_uniform_length (width img)); [reflexivity|].
    eapply Forall_impl; [|exact H]. now intros row [Hw _].
  - apply Forall_concat. eapply Forall_impl; [|exact H]. now intros row [_ Hc].
Qed.

(** ** The extraction loops on the bit plane *)

Lemma scan_pixel_app (total : nat) (password : str) (a b : list Z) :
  forall bits,
    scan_pixel total password (a ++ b) bits =
    match scan_pixel total password a bits with
    | (bits', Some r) => (bits', Some r)
    | (bits', None) => scan_pixel total password b bits'
    end.
Proof.
  induction a as [|v a IH]; intros bits; [reflexivity|].
  cbn [app scan_pixel].
  destruct (attempt total password (bits ++ [Z.land v 1 =? 1])); [reflexivity|].
  apply IH.
Qed.

Lemma scan_each_flat {A : Type} (total : nat) (password : str)
  (flat : A -> list Z)
  (body : A -> list bool -> list bool * option decode_result) :
  (forall x bits, body x bits = scan_pixel total password (flat x) bits) ->
  forall xs bits,
    scan_each body xs bits
    = scan_pixel total password (concat (map flat xs)) bits.
Proof.
  intros Hbody. induction xs as [|x xs IH]; intros bits; [reflexivity|].
  cbn [scan_each map concat]. rewrite scan_pixel_app, Hbody.
  destruct (scan_pixel total password (flat x) bits) as [bits' [r|]];
    [reflexivity|apply IH].
Qed.

(** The three loops of [decode_message] are one pass over the bit plane. *)
Lemma scan_bit_plane (img : image) (password : str) :
  scan img password
  = scan_pixel (height img * width img * channels img) password
      (bit_plane img) [].
Proof.
  unfold scan, bit_plane. rewrite concat_twice.
  apply scan_each_flat. intros row bits.
  rewrite (scan_each_flat (height img * width img * channels img) password
             (fun px : list Z => px)); [|reflexivity].
  now rewrite map_id.
Qed.

(** The pass leaves at the first prefix of the bit plane the loop body
    accepts, and runs to the end when there is none. *)
Lemma scan_pixel_none (total : nat) (password : str) (vs : list Z) :
  forall acc,
    (forall k, (1 <= k <= length vs)%nat ->
               attempt total password (acc ++ firstn k (lsbs vs)) = None) ->
    scan_pixel total password vs acc = (acc ++ lsbs vs, None).
Proof.
  induction vs as [|v vs IH]; intros acc H.
  - cbn. now rewrite app_nil_r.
  - cbn [scan_pixel].
    pose proof (H 1%nat ltac:(cbn [length]; lia)) as H1.
    cbn [lsbs map firstn] in H1. rewrite H1.
    rewrite IH.
    + cbn [lsbs map]. now rewrite <- app_assoc.
    + intros k Hk. rewrite <- app_assoc. cbn [app].
      apply (H (S k)). cbn [length]. lia.
Qed.

Lemma scan_pixel_first (total : nat) (password : str) (vs : list Z) :
  forall acc k r,
    (1 <= k <= length vs)%nat ->
    (forall j, (1 <= j < k)%nat ->
               attempt total password (acc ++ firstn j (lsbs vs)) = None) ->
    attempt total password (acc ++ firstn k (lsbs vs)) = Some r ->
    scan_pixel total password vs acc = (acc ++ firstn k (lsbs vs), Some r).
Proof.
  induction vs as [|v vs IH]; intros acc k r Hk Hbefore Hat.
  - cbn [length] in Hk. lia.
  - cbn [scan_pixel]. destruct (Nat.eq_dec k 1) as [->|Hne].
    + cbn [lsbs map firstn] in Hat. rewrite Hat. reflexivity.
    + pose proof (Hbefore 1%nat ltac:(lia)) as H1.
      cbn [lsbs map firstn] in H1. rewrite H1.
      destruct k as [|k]; [lia|].
      rewrite (IH (acc ++ [Z.land v 1 =? 1]) k r).
      * cbn [lsbs map firstn]. now rewrite <- app_assoc.
      * cbn [length] in Hk. lia.
      * intros j Hj. rewrite <- app_assoc. cbn [app].
        apply (Hbefore (S j)). lia.
      * rewrite <- app_assoc. exact Hat.
Qed.

(** What the pass finds does not depend on the password: the bits read and
    the accepted ciphertext are fixed by the carrier; the password only
    enters through [decrypt_message]. *)
Lemma scan_pixel_structure (total : nat) (vs : list Z) :
  forall acc, exists bits' (found : option (list Z)),
    forall password,
      scan_pixel total password vs acc
      = (bits', option_map (decrypt_message password) found).
Proof.
  induction vs as [|v vs IH]; intros acc.
  - exists acc, None. reflexivity.
  - cbn [scan_pixel]. unfold attempt.
    destruct (parse_frame total (acc ++ [Z.land v 1 =? 1])) as [c|] eqn:E.
    + exists (acc ++ [Z.land v 1 =? 1]), (Some c). reflexivity.
    + destruct (IH (acc ++ [Z.land v 1 =? 1])) as [bits' [found H]].
      exists bits', found. exact H.
Qed.

Lemma decrypt_message_outcome (password : str) (c : list Z) :
  decrypt_message password c <> LikelyWrongPassword.
Proof.
  unfold decrypt_message.
  destruct (utf8_encode password) as [pb|]; [|discriminate].
  destruct (utf8_decode_replace_total (xor_key (Sha256.digest pb) c)) as [t ->].
  discriminate.
Qed.

(** ** The loop body *)

Lemma int2_nonneg (bits : list bool) : 0 <= int2 bits.
Proof.
  unfold int2.
  assert (H : forall acc, 0 <= acc ->
                0 <= fold_left (fun a b => 2 * a + Z.b2z b) bits acc).
  { induction bits as [|b bits IH]; intros acc Hacc; [exact Hacc|].
    cbn [fold_left]. apply IH. destruct b; cbn [Z.b2z]; lia. }
  apply H. lia.
Qed.

Lemma from_bytes_nonneg (bs : list Z) : Forall (fun b => 0 <= b) bs -> 0 <= from_bytes bs.
Proof.
  unfold from_bytes. intros H.
  assert (G : forall acc, 0 <= acc ->
                0 <= fold_left (fun a b => a * 256 + b) bs acc).
  { induction H as [|b bs Hb Hbs IH]; intros acc Hacc; [exact Hacc|].
    cbn [fold_left]. apply IH. lia. }
  apply G. lia.
Qed.

Lemma bytes_at_nonneg (n : nat) (bits : list bool) :
  Forall (fun b => 0 <= b) (bytes_at n bits).
Proof.
  unfold bytes_at. apply Forall_forall. intros b Hb.
  apply in_map_iff in Hb. destruct Hb as [i [<- _]]. apply int2_nonneg.
Qed.

Lemma slice_firstn {A : Type} (i j k : nat) (l : list A) :
  (j <= k)%nat -> slice i j (firstn k l) = slice i j l.
Proof.
  intros Hjk. unfold slice. rewrite skipn_firstn_comm, firstn_firstn.
  f_equal. lia.
Qed.

Lemma bytes_at_firstn (n k : nat) (bits : list bool) :
  (n <= k)%nat -> (n mod 8 = 0)%nat ->
  bytes_at n (firstn k bits) = bytes_at n bits.
Proof.
  intros Hnk Hmod. unfold bytes_at. apply map_ext_in. intros i Hi.
  rewrite slice_firstn; [reflexivity|].
  unfold range8 in Hi. apply in_map_iff in Hi. destruct Hi as [q [<- Hq]].
  apply in_seq in Hq.
  pose proof (Nat.div_mod_eq n 8) as E. rewrite Hmod in E.
  assert (((n + 7) / 8 = n / 8)%nat) as E2.
  { symmetry. apply Nat.div_unique with (r := 7%nat); lia. }
  lia.
Qed.

Lemma parse_frame_short (total : nat) (bits : list bool) :
  (length bits < 72)%nat -> parse_frame total bits = None.
Proof.
  intros H. unfold parse_frame.
  destruct (Nat.leb_spec 72 (length bits)); [lia|reflexivity].
Qed.

Lemma parse_frame_mismatch (total : nat) (bits : list bool) :
  bytes_at 40 bits <> STEGO -> parse_frame total bits = None.
Proof.
  intros H. unfold parse_frame.
  destruct (72 <=? length bits)%nat; [|reflexivity].
  destruct (list_eq_dec Z.eq_dec (bytes_at 40 bits) STEGO); [contradiction|reflexivity].
Qed.

(** The loop body on a bit string that begins with a header for length
    [len]. *)
Lemma parse_frame_framed (total : nat) (len : Z) (rest : list bool) :
  0 <= len < 2 ^ 32 ->
  parse_frame total (to_binary (STEGO ++ be_bytes 4 len) ++ rest) =
  if (len <=? 0) || (len >? Z.of_nat total / 8) then None
  else if Z.of_nat (length rest) <? len * 8 then None
       else Some (full_bytes (firstn (Z.to_nat (len * 8)) rest)).
Proof.
  intros Hlen. unfold parse_frame.
  rewrite to_binary_app, <- app_assoc.
  assert (Hl : length (to_binary STEGO ++ to_binary (be_bytes 4 len) ++ rest)
               = (72 + length rest)%nat).
  { rewrite !length_app, !to_binary_length, be_bytes_length. reflexivity. }
  rewrite Hl.
  destruct (Nat.leb_spec 72 (72 + length rest)); [|lia].
  assert (Hmagic : Forall is_byte STEGO).
  { unfold STEGO, is_byte. repeat (apply Forall_cons; [lia|]). apply Forall_nil. }
  rewrite (bytes_at_to_binary STEGO _ Hmagic : bytes_at 40 _ = STEGO).
  destruct (list_eq_dec Z.eq_dec STEGO STEGO) as [_|N]; [|contradiction].
  assert (Hslice : slice 40 72 (to_binary STEGO ++ to_binary (be_bytes 4 len) ++ rest)
                   = to_binary (be_bytes 4 len)).
  { apply (slice_after_prefix (to_binary STEGO) (to_binary (be_bytes 4 len)) rest
             40 32 eq_refl).
    now rewrite to_binary_length, be_bytes_length. }
  rewrite Hslice.
  pose proof (bytes_at_to_binary (be_bytes 4 len) [] (be_bytes_range 4 len)) as Hb.
  rewrite be_bytes_length, app_nil_r in Hb. change (8 * 4)%nat with 32%nat in Hb.
  rewrite !Hb, !from_bytes_be_bytes4 by exact Hlen.
  destruct ((len <=? 0) || (len >? Z.of_nat total / 8)) eqn:Hcheck; [reflexivity|].
  apply orb_false_iff in Hcheck. destruct Hcheck as [Hpos _].
  apply Z.leb_gt in Hpos.
  destruct (Z.ltb_spec (Z.of_nat (72 + length rest)) (72 + len * 8));
    destruct (Z.ltb_spec (Z.of_nat (length rest)) (len * 8)); try lia;
    [reflexivity|].
  f_equal. f_equal. unfold slice.
  rewrite app_assoc, skipn_app.
  rewrite skipn_all2 by (rewrite length_app, !to_binary_length, be_bytes_length; cbn; lia).
  rewrite length_app, !to_binary_length, be_bytes_length.
  cbn [app]. change (72 - (8 * length STEGO + 8 * 4))%nat with 0%nat.
  cbn [skipn]. f_equal. lia.
Qed.

(** ** [encode_message] *)

Lemma valid_carrier_bit_plane (img : image) :
  valid_carrier img -> Forall is_byte (bit_plane img).
Proof.
  unfold valid_carrier, bit_plane. intros H.
  apply Forall_concat, Forall_concat. exact H.
Qed.

(** What a run that ends with [Encoded] did. *)
Lemma encode_message_encoded (img : image) (message password : str) :
  outcome (encode_message img message password) = Encoded ->
  exists password_bytes message_bytes,
    utf8_encode password = Some password_bytes
    /\ utf8_encode message = Some message_bytes
    /\ Z.of_nat (length message) <= max_bytes img
    /\ Z.of_nat (length message_bytes) < 2 ^ 32
    /\ img_after (encode_message img message password)
       = embed (to_binary (frame (Sha256.digest password_bytes) message_bytes)) img
    /\ output_file (encode_message img message password)
       = Some (img_after (encode_message img message password)).
Proof.
  unfold encode_message, frame.
  destruct (Z.gtb_spec (Z.of_nat (length message)) (max_bytes img)) as [|Hfit];
    [discriminate|].
  destruct (utf8_encode password) as [pb|]; [|discriminate].
  destruct (utf8_encode message) as [mb|]; [|discriminate].
  unfold to_bytes4. rewrite xor_key_length.
  destruct (Z.leb_spec 0 (Z.of_nat (length mb))); [|discriminate].
  destruct (Z.ltb_spec (Z.of_nat (length mb)) (2 ^ 32)); [|discriminate].
  cbn [andb outcome img_after output_file]. intros _.
  exists pb, mb. rewrite xor_key_length. repeat split; auto.
Qed.

(** When a run ends with [Encoded]. *)
Lemma encode_message_succeeds (img : image) (message password : str)
  (password_bytes message_bytes : list Z) :
  utf8_encode password = Some password_bytes ->
  utf8_encode message = Some message_bytes ->
  Z.of_nat (length message) <= max_bytes img ->
  Z.of_nat (length message_bytes) < 2 ^ 32 ->
  outcome (encode_message img message password) = Encoded.
Proof.
  intros Hp Hm Hfit Hlen. unfold encode_message.
  destruct (Z.gtb_spec (Z.of_nat (length message)) (max_bytes img)); [lia|].
  rewrite Hp, Hm. rewrite to_bytes4_some; [reflexivity|].
  rewrite xor_key_length. lia.
Qed.

(** C7. When the capacity check fails, nothing was written: the function
    returns with the capacity error, the array in memory is the input array
    with every channel value as it was, and no output file was produced. *)
Theorem capacity_failure_leaves_carrier (img : image) (message password : str) :
  Z.of_nat (length message) > max_bytes img ->
  outcome (encode_message img message password) = MessageTooLong (max_bytes img)
  /\ img_after (encode_message img message password) = img
  /\ bit_plane (img_after (encode_message img message password)) = bit_plane img
  /\ output_file (encode_message img message password) = None.
Proof.
  intros Hlong. unfold encode_message.
  destruct (Z.gtb_spec (Z.of_nat (length message)) (max_bytes img)); [|lia].
  cbn [outcome img_after output_file]. repeat split.
Qed.

Lemma capacity_failure_leaves_carrier_witness :
  Z.of_nat (length text_hi) > max_bytes carrier_10x10x3
  /\ img_after (encode_message carrier_10x10x3 text_hi password_pw)
     = carrier_10x10x3.
Proof.
  assert (H : Z.of_nat (length text_hi) > max_bytes carrier_10x10x3)
    by (vm_compute; reflexivity).
  split; [exact H|].
  exact (proj1 (proj2 (capacity_failure_leaves_carrier
                         carrier_10x10x3 text_hi password_pw H))).
Defined.

(** The capacity test as it is written: the bound is
    [floor(rows * cols * 3 / 8) - 64], it is compared with [len(message)],
    and the capacity error is returned exactly when that length exceeds
    it. *)
Theorem capacity_check_exact (img : image) (message password : str) :
  max_bytes img = Z.of_nat (height img) * Z.of_nat (width img) * 3 / 8 - 64
  /\ ((exists n, outcome (encode_message img message password) = MessageTooLong n)
      <-> Z.of_nat (length message) > max_bytes img).
Proof.
  split; [reflexivity|]. split.
  - intros [n Hn]. unfold encode_message in Hn.
    destruct (Z.gtb_spec (Z.of_nat (length message)) (max_bytes img)); [lia|].
    destruct (utf8_encode password); [|discriminate].
    destruct (utf8_encode message); [|discriminate].
    destruct (to_bytes4 _); discriminate.
  - intros Hlong. exists (max_bytes img).
    now apply capacity_failure_leaves_carrier.
Qed.

(** C1 as the specification words it fails on the 10x10x3 carrier: two
    bytes are within [300 / 8 - 9 = 28], yet the capacity error is
    returned. *)
Lemma capacity_claim_counterexample :
  ~ ((exists n, outcome (encode_message carrier_10x10x3 text_hi password_pw)
                = MessageTooLong n)
     <-> Z.of_nat (length [104; 105])
         > Z.of_nat (height carrier_10x10x3) * Z.of_nat (width carrier_10x10x3)
           * Z.of_nat (channels carrier_10x10x3) / 8 - 9).
Proof.
  intros [H _].
  assert (E : exists n, outcome (encode_message carrier_10x10x3 text_hi password_pw)
                        = MessageTooLong n)
    by (exists (-27); vm_compute; reflexivity).
  specialize (H E). vm_compute in H. discriminate.
Qed.

(** C8. After a successful run the shape of the array is unchanged, every
    channel value past the last frame bit is the original one, and every
    channel value keeps all its bits above the least significant one. *)
Theorem embed_frame_condition (img : image) (message password : str) :
  valid_carrier img ->
  outcome (encode_message img message password) = Encoded ->
  exists password_bytes message_bytes,
    utf8_encode password = Some password_bytes
    /\ utf8_encode message = Some message_bytes
    /\ let ciphertext := xor_key (Sha256.digest password_bytes) message_bytes in
       let img' := img_after (encode_message img message password) in
       height img' = height img /\ width img' = width img
       /\ channels img' = channels img
       /\ length (bit_plane img') = length (bit_plane img)
       /\ forall i : nat,
           ((8 * (9 + length ciphertext) <= i)%nat ->
            nth i (bit_plane img') 0 = nth i (bit_plane img) 0)
           /\ Z.shiftr (nth i (bit_plane img') 0) 1
              = Z.shiftr (nth i (bit_plane img) 0) 1.
Proof.
  intros Hvalid Hok.
  destruct (encode_message_encoded img message password Hok)
    as [pb [mb [Hp [Hm [_ [_ [Himg _]]]]]]].
  exists pb, mb. split; [exact Hp|]. split; [exact Hm|].
  cbv zeta. rewrite Himg.
  rewrite embed_height, embed_width, embed_channels, bit_plane_embed.
  repeat split; auto using write_bits_length.
  - intros Hi. apply write_bits_beyond.
    unfold frame. rewrite to_binary_length, !length_app, be_bytes_length.
    cbn [STEGO length]. lia.
  - apply write_bits_upper_bits. now apply valid_carrier_bit_plane.
Qed.

Lemma embed_frame_condition_witness :
  exists password_bytes message_bytes,
    utf8_encode password_pw = Some password_bytes
    /\ utf8_encode text_hi = Some message_bytes
    /\ let ciphertext := xor_key (Sha256.digest password_bytes) message_bytes in
       let img' := img_after (encode_message carrier_10x18x3 text_hi password_pw) in
       height img' = height carrier_10x18x3 /\ width img' = width carrier_10x18x3
       /\ channels img' = channels carrier_10x18x3
       /\ length (bit_plane img') = length (bit_plane carrier_10x18x3)
       /\ forall i : nat,
           ((8 * (9 + length ciphertext) <= i)%nat ->
            nth i (bit_plane img') 0 = nth i (bit_plane carrier_10x18x3) 0)
           /\ Z.shiftr (nth i (bit_plane img') 0) 1
              = Z.shiftr (nth i (bit_plane carrier_10x18x3) 0) 1.
Proof.
  apply (embed_frame_condition carrier_10x18x3 text_hi password_pw).
  - unfold valid_carrier, carrier_10x18x3, uniform_image.
    repeat (apply Forall_forall; intros ? ->%repeat_spec).
    unfold is_byte. lia.
  - vm_compute. reflexivity.
Defined.

(** ** [decode_message] *)

Lemma lsbs_length (vs : list Z) : length (lsbs vs) = length vs.
Proof. apply length_map. Qed.

(** The pass over a bit plane that begins with a header for [len] followed
    by [len] payload bytes leaves right after the payload, with the payload
    decrypted. *)
Lemma scan_framed (total : nat) (password : str) (vs : list Z) (len : Z)
  (payload tail : list bool) :
  lsbs vs = to_binary (STEGO ++ be_bytes 4 len) ++ payload ++ tail ->
  0 < len < 2 ^ 32 -> len <= Z.of_nat total / 8 ->
  Z.of_nat (length payload) = len * 8 ->
  scan_pixel total password vs []
  = (to_binary (STEGO ++ be_bytes 4 len) ++ payload,
     Some (decrypt_message password (full_bytes payload))).
Proof.
  intros Hbits Hlen Htotal Hpayload.
  set (hdr := to_binary (STEGO ++ be_bytes 4 len)) in *.
  assert (Hhdr : length hdr = 72%nat).
  { unfold hdr. rewrite to_binary_length, length_app, be_bytes_length. reflexivity. }
  assert (Hcheck : (len <=? 0) || (len >? Z.of_nat total / 8) = false).
  { apply orb_false_iff. split; [apply Z.leb_gt; lia|].
    destruct (Z.gtb_spec len (Z.of_nat total / 8)); [lia|reflexivity]. }
  assert (Hvs : length vs = (72 + length payload + length tail)%nat).
  { rewrite <- lsbs_length, Hbits, !length_app, Hhdr. lia. }
  assert (Hprefix : forall j, (72 <= j)%nat ->
             firstn j (lsbs vs) = hdr ++ firstn (j - 72) (payload ++ tail)).
  { intros j Hj. rewrite Hbits, firstn_app, Hhdr, firstn_all2 by lia.
    reflexivity. }
  pose proof (scan_pixel_first total password vs [] (72 + length payload)%nat
                (decrypt_message password (full_bytes payload))) as H.
  cbn [app] in H. rewrite H; clear H.
  - rewrite Hprefix by lia. f_equal. f_equal.
    replace (72 + length payload - 72)%nat with (length payload) by lia.
    rewrite firstn_app, firstn_all, Nat.sub_diag. cbn [firstn]. apply app_nil_r.
  - lia.
  - intros j Hj. unfold attempt.
    destruct (Nat.lt_ge_cases j 72) as [Hs|Hl].
    + rewrite parse_frame_short; [reflexivity|]. rewrite length_firstn. lia.
    + rewrite Hprefix by exact Hl. unfold hdr.
      rewrite parse_frame_framed by lia. rewrite Hcheck.
      rewrite length_firstn, length_app.
      destruct (Z.ltb_spec
                  (Z.of_nat (Nat.min (j - 72) (length payload + length tail)))
                  (len * 8)); [reflexivity|lia].
  - unfold attempt. rewrite Hprefix by lia. unfold hdr.
    rewrite parse_frame_framed by lia. rewrite Hcheck.
    replace (72 + length payload - 72)%nat with (length payload) by lia.
    rewrite firstn_app, firstn_all, Nat.sub_diag. cbn [firstn]. rewrite app_nil_r.
    destruct (Z.ltb_spec (Z.of_nat (length payload)) (len * 8)); [lia|].
    cbn [option_map]. do 3 f_equal.
    rewrite firstn_all2; [reflexivity|lia].
Qed.

(** The least significant bits of the carrier after the frame was
    embedded. *)
Lemma lsbs_embed_frame (img : image) (key message_bytes : list Z) :
  (72 + 8 * length message_bytes <= length (bit_plane img))%nat ->
  lsbs (bit_plane (embed (to_binary (frame key message_bytes)) img))
  = to_binary (STEGO ++ be_bytes 4 (Z.of_nat (length message_bytes)))
      ++ to_binary (xor_key key message_bytes)
      ++ skipn (72 + 8 * length message_bytes) (lsbs (bit_plane img)).
Proof.
  intros Hfit. rewrite bit_plane_embed.
  assert (Hl : length (to_binary (frame key message_bytes))
               = (72 + 8 * length message_bytes)%nat).
  { unfold frame. rewrite to_binary_length, !length_app, be_bytes_length,
      xor_key_length. cbn [STEGO length]. lia. }
  rewrite lsbs_write_bits by lia. rewrite Hl.
  unfold frame. rewrite xor_key_length, to_binary_app, <- app_assoc. reflexivity.
Qed.

(** C2, as the code has it. For a rectangular carrier, a password and a
    non-empty text that are valid Unicode, a text of at most
    [floor(rows * cols * 3 / 8) - 64] characters whose frame fits the bit
    plane and whose byte length fits the length field, embedding succeeds
    and extracting with the same password returns the text. *)
Theorem round_trip (img : image) (message password : str)
  (password_bytes message_bytes : list Z) :
  well_shaped img ->
  utf8_encode password = Some password_bytes ->
  utf8_encode message = Some message_bytes ->
  message <> [] ->
  Z.of_nat (length message) <= max_bytes img ->
  (72 + 8 * length message_bytes <= height img * width img * channels img)%nat ->
  Z.of_nat (length message_bytes) < 2 ^ 32 ->
  outcome (encode_message img message password) = Encoded
  /\ decode_message (img_after (encode_message img message password)) password
     = Decoded message.
Proof.
  intros Hshape Hp Hm Hne Hcap Hfit Hlen.
  pose proof (encode_message_succeeds img message password _ _ Hp Hm Hcap Hlen)
    as Hok.
  split; [exact Hok|].
  destruct (encode_message_encoded img message password Hok)
    as [pb [mb [Hp' [Hm' [_ [_ [Himg _]]]]]]].
  rewrite Hp in Hp'. rewrite Hm in Hm'.
  apply some_inj in Hp'. apply some_inj in Hm'. subst pb mb.
  rewrite Himg. unfold decode_message. rewrite scan_bit_plane.
  rewrite embed_height, embed_width, embed_channels.
  set (key := Sha256.digest password_bytes).
  set (total := (height img * width img * channels img)%nat) in *.
  pose proof (bit_plane_length img Hshape) as Htotal. fold total in Htotal.
  assert (Hbytes : Forall is_byte message_bytes) by (eapply utf8_encode_range; eauto).
  assert (Hcipher : Forall is_byte (xor_key key message_bytes)).
  { apply xor_key_range; [apply digest_range|apply digest_nonempty|exact Hbytes]. }
  assert (Hpos : (0 < length message_bytes)%nat).
  { pose proof (utf8_encode_nonempty message message_bytes Hm Hne).
    destruct message_bytes; [congruence|cbn; lia]. }
  rewrite (scan_framed total password _ (Z.of_nat (length message_bytes))
             (to_binary (xor_key key message_bytes))
             (skipn (72 + 8 * length message_bytes) (lsbs (bit_plane img)))).
  - cbn [snd]. rewrite full_bytes_to_binary by exact Hcipher.
    unfold decrypt_message. rewrite Hp. fold key.
    rewrite xor_key_involutive.
    now rewrite (utf8_round_trip Replace message message_bytes Hm).
  - apply lsbs_embed_frame. lia.
  - lia.
  - assert (8 * Z.of_nat (length message_bytes) + 72 <= Z.of_nat total) by lia.
    z_arith.
  - rewrite to_binary_length, xor_key_length. lia.
Qed.

Lemma uniform_image_well_shaped (rows cols chans : nat) (v : Z) :
  well_shaped (uniform_image rows cols chans v).
Proof.
  unfold well_shaped, uniform_image.
  destruct rows as [|rows]; [constructor|].
  apply Forall_forall. intros row Hrow. apply repeat_spec in Hrow. subst row.
  unfold width, channels. cbn [repeat hd]. split; [reflexivity|].
  destruct cols as [|cols]; [constructor|].
  apply Forall_forall. intros px Hpx. apply repeat_spec in Hpx. now subst px.
Qed.

Lemma round_trip_witness :
  outcome (encode_message carrier_10x18x3 text_hi password_pw) = Encoded
  /\ decode_message
       (img_after (encode_message carrier_10x18x3 text_hi password_pw))
       password_pw
     = Decoded text_hi.
Proof.
  apply (round_trip carrier_10x18x3 text_hi password_pw [112; 119] [104; 105]).
  - apply uniform_image_well_shaped.
  - reflexivity.
  - reflexivity.
  - discriminate.
  - vm_compute. discriminate.
  - apply Nat.leb_le. vm_compute. reflexivity.
  - vm_compute. reflexivity.
Defined.

(** C2 as the specification words it fails twice. On the 10x10x3 carrier
    the two bytes of ["hi"] are within [300 / 8 - 9], yet nothing is
    embedded and nothing can be extracted. On the 10x18x3 carrier the empty
    text is embedded, and extraction does not return it. *)
Lemma round_trip_claim_counterexample :
  (utf8_encode text_hi = Some [104; 105]
   /\ Z.of_nat (length [104; 105]) <= 300 / 8 - 9
   /\ outcome (encode_message carrier_10x10x3 text_hi password_pw) <> Encoded
   /\ decode_message
        (img_after (encode_message carrier_10x10x3 text_hi password_pw))
        password_pw
      <> Decoded text_hi)
  /\ (utf8_encode [] = Some []
      /\ Z.of_nat (length (@nil Z)) <= 540 / 8 - 9
      /\ outcome (encode_message carrier_10x18x3 [] password_pw) = Encoded
      /\ decode_message
           (img_after (encode_message carrier_10x18x3 [] password_pw))
           password_pw
         <> Decoded []).
Proof.
  repeat split; try (vm_compute; reflexivity); vm_compute; discriminate.
Qed.

(** C10. On a rectangular carrier that passes the capacity check and has
    room for the header, the empty message is embedded as a frame whose
    length field is zero, and extraction, with any password, reports that
    no message was found. *)
Theorem empty_payload_asymmetry (img : image) (password password' : str)
  (password_bytes : list Z) :
  well_shaped img ->
  utf8_encode password = Some password_bytes ->
  0 <= max_bytes img ->
  (72 <= height img * width img * channels img)%nat ->
  outcome (encode_message img [] password) = Encoded
  /\ firstn 72 (lsbs (bit_plane (img_after (encode_message img [] password))))
     = to_binary (STEGO ++ [0; 0; 0; 0])
  /\ decode_message (img_after (encode_message img [] password)) password'
     = NotFound.
Proof.
  intros Hshape Hp Hcap Hroom.
  assert (Hok : outcome (encode_message img [] password) = Encoded).
  { apply (encode_message_succeeds img [] password password_bytes []);
      auto; cbn; lia. }
  split; [exact Hok|].
  destruct (encode_message_encoded img [] password Hok)
    as [pb [mb [_ [Hm' [_ [_ [Himg _]]]]]]].
  cbn [utf8_encode] in Hm'. apply some_inj in Hm'. subst mb.
  rewrite Himg.
  pose proof (bit_plane_length img Hshape) as Htotal.
  pose proof (lsbs_embed_frame img (Sha256.digest pb) []
                ltac:(cbn [length]; lia)) as Hbits.
  change (Z.of_nat (length (@nil Z))) with 0 in Hbits.
  change (to_binary (xor_key (Sha256.digest pb) [])) with (@nil bool) in Hbits.
  cbn [app] in Hbits.
  assert (Hhdr : length (to_binary (STEGO ++ be_bytes 4 0)) = 72%nat)
    by reflexivity.
  split.
  - rewrite Hbits, firstn_app, Hhdr, firstn_all2 by (rewrite Hhdr; lia).
    cbn [Nat.sub firstn]. rewrite app_nil_r. reflexivity.
  - unfold decode_message. rewrite scan_bit_plane, scan_pixel_none; [reflexivity|].
    intros k Hk. cbn [app]. unfold attempt.
    destruct (Nat.lt_ge_cases k 72) as [Hs|Hl].
    + rewrite parse_frame_short; [reflexivity|]. rewrite length_firstn. lia.
    + rewrite Hbits, firstn_app, Hhdr, firstn_all2 by (rewrite Hhdr; lia).
      rewrite parse_frame_framed by (change (2 ^ 32) with 4294967296; lia).
      reflexivity.
Qed.

Lemma empty_payload_asymmetry_witness :
  outcome (encode_message carrier_10x18x3 [] password_pw) = Encoded
  /\ firstn 72 (lsbs (bit_plane
                        (img_after (encode_message carrier_10x18x3 [] password_pw))))
     = to_binary (STEGO ++ [0; 0; 0; 0])
  /\ decode_message (img_after (encode_message carrier_10x18x3 [] password_pw))
       password_xx
     = NotFound.
Proof.
  apply (empty_payload_asymmetry carrier_10x18x3 password_pw password_xx [112; 119]).
  - apply uniform_image_well_shaped.
  - reflexivity.
  - vm_compute. discriminate.
  - apply Nat.leb_le. vm_compute. reflexivity.
Defined.

(** C4, as the code has it. The header is only ever read at bit offset 0:
    whenever the first five bytes of the bit plane are not the magic,
    extraction reports that no message was found, whatever follows. *)
Theorem header_only_at_offset_zero (img : image) (password : str) :
  bytes_at 40 (lsbs (bit_plane img)) <> STEGO ->
  decode_message img password = NotFound.
Proof.
  intros Hmagic. unfold decode_message.
  rewrite scan_bit_plane, scan_pixel_none; [reflexivity|].
  intros k Hk. cbn [app]. unfold attempt.
  destruct (Nat.lt_ge_cases (length (firstn k (lsbs (bit_plane img)))) 72)
    as [Hs|Hl].
  - now rewrite parse_frame_short.
  - rewrite parse_frame_mismatch; [reflexivity|].
    rewrite length_firstn in Hl.
    rewrite bytes_at_firstn; [exact Hmagic|lia|reflexivity].
Qed.

Lemma header_only_at_offset_zero_witness :
  bytes_at 40 (lsbs (bit_plane carrier_shifted)) <> STEGO
  /\ decode_message carrier_shifted password_pw = NotFound.
Proof.
  assert (H : bytes_at 40 (lsbs (bit_plane carrier_shifted)) <> STEGO)
    by (vm_compute; discriminate).
  split; [exact H|].
  exact (header_only_at_offset_zero carrier_shifted password_pw H).
Defined.

(** C4 as the specification words it fails on a 10x18x3 carrier whose bit
    plane holds the frame of ["hi"] under ["pw"] from bit 8 on, after eight
    zero bits: the frame is structurally valid there and decrypts to
    ["hi"], the bits before it are not the magic, and extraction reports
    that no message was found. *)
Lemma resynchronization_claim_counterexample :
  firstn 88 (skipn 8 (lsbs (bit_plane carrier_shifted))) = to_binary frame_hi_pw
  /\ firstn 8 (lsbs (bit_plane carrier_shifted)) = repeat false 8
  /\ option_map (decrypt_message password_pw)
       (parse_frame 540 (firstn 88 (skipn 8 (lsbs (bit_plane carrier_shifted)))))
     = Some (Decoded text_hi)
  /\ decode_message carrier_shifted password_pw = NotFound.
Proof. repeat split; vm_compute; reflexivity. Qed.

(** C6. A candidate parse, which the code only ever makes at bit offset 0
    of the accumulated bits, is a [continue] exactly when the first five
    bytes are not the magic, or the length field is zero, or it exceeds
    [totalBits / 8 - 9], or fewer payload bytes than it announces have been
    accumulated. *)
Theorem parse_rejection (total : nat) (password : str) (extracted_bits : list bool) :
  (72 <= length extracted_bits <= total)%nat ->
  let message_length := from_bytes (bytes_at 32 (slice 40 72 extracted_bits)) in
  attempt total password extracted_bits = None <->
  (bytes_at 40 extracted_bits <> STEGO
   \/ message_length = 0
   \/ message_length > (Z.of_nat total - 0) / 8 - 9
   \/ (Z.of_nat (length extracted_bits) - 72) / 8 < message_length).
Proof.
  intros [Hmin Hmax] message_length.
  assert (Hnonneg : 0 <= message_length).
  { apply from_bytes_nonneg, bytes_at_nonneg. }
  unfold attempt, parse_frame. fold message_length.
  destruct (Nat.leb_spec 72 (length extracted_bits)) as [_|]; [|lia].
  destruct (list_eq_dec Z.eq_dec (bytes_at 40 extracted_bits) STEGO) as [Hm|Hm].
  - destruct (Z.leb_spec message_length 0) as [H0|H0]; cbn [orb].
    { split; [intros _; right; left; lia|reflexivity]. }
    destruct (Z.gtb_spec message_length (Z.of_nat total / 8)) as [H1|H1].
    { split; [intros _; right; right; left; z_arith|reflexivity]. }
    destruct (Z.ltb_spec (Z.of_nat (length extracted_bits))
                (72 + message_length * 8)) as [H2|H2].
    { split; [intros _; right; right; right; z_arith|reflexivity]. }
    cbn [option_map]. split; [discriminate|].
    intros [H|[H|[H|H]]]; [contradiction|lia| |]; exfalso; z_arith.
  - split; [intros _; now left|reflexivity].
Qed.

Lemma parse_rejection_witness :
  attempt 540 password_pw bits_80 = None <->
  (bytes_at 40 bits_80 <> STEGO
   \/ from_bytes (bytes_at 32 (slice 40 72 bits_80)) = 0
   \/ from_bytes (bytes_at 32 (slice 40 72 bits_80)) > (Z.of_nat 540 - 0) / 8 - 9
   \/ (Z.of_nat (length bits_80) - 72) / 8
      < from_bytes (bytes_at 32 (slice 40 72 bits_80))).
Proof.
  apply (parse_rejection 540 password_pw bits_80).
  split; apply Nat.leb_le; vm_compute; reflexivity.
Defined.

Lemma decrypt_message_found (password : str) (c : list Z) :
  decrypt_message password c <> NotFound.
Proof.
  unfold decrypt_message.
  destruct (utf8_encode password); [|discriminate].
  destruct (utf8_decode Replace _); discriminate.
Qed.

(** C9. Two runs on the same carrier with different passwords read the
    same bits and accept the same frame, or none; a password only enters
    through the decryption of the accepted ciphertext. *)
Theorem scan_password_independent (img : image) (password1 password2 : str) :
  fst (scan img password1) = fst (scan img password2)
  /\ (exists found : option (list Z),
         snd (scan img password1) = option_map (decrypt_message password1) found
         /\ snd (scan img password2) = option_map (decrypt_message password2) found)
  /\ (decode_message img password1 = NotFound
      <-> decode_message img password2 = NotFound).
Proof.
  unfold decode_message. rewrite !scan_bit_plane.
  destruct (scan_pixel_structure (height img * width img * channels img)
              (bit_plane img) []) as [bits [found H]].
  rewrite (H password1), (H password2). cbn [fst snd].
  split; [reflexivity|]. split; [now exists found|].
  destruct found as [c|]; cbn [option_map]; [|tauto].
  split; intros E; exfalso; eapply decrypt_message_found; exact E.
Qed.

(** No run of [decode_message] ends with the wrong-password report, and
    extracting ["hi"], embedded under ["pw"] in the 10x18x3 carrier, with
    ["xx"] returns a decoded text. *)
Theorem wrong_password_returns_text :
  (forall img password, decode_message img password <> LikelyWrongPassword)
  /\ decode_message
       (img_after (encode_message carrier_10x18x3 text_hi password_pw))
       password_xx
     = Decoded [5; 126].
Proof.
  split.
  - intros img password. unfold decode_message. rewrite scan_bit_plane.
    destruct (scan_pixel_structure (height img * width img * channels img)
                (bit_plane img) []) as [bits [found H]].
    rewrite (H password). cbn [snd].
    destruct found as [c|]; cbn [option_map];
      [apply decrypt_message_outcome|discriminate].
  - vm_compute. reflexivity.
Qed.

(** C5 as the specification words it fails at its first step: on the
    10x10x3 carrier the capacity is [-27] and embedding ["hi"] is
    refused. *)
Lemma scenario_claim_counterexample :
  ~ (outcome (encode_message carrier_10x10x3 text_hi password_pw) = Encoded).
Proof. vm_compute. discriminate. Qed.

(** C5, as the code has it, on the 10x18x3 all-zero carrier (540 channels,
    capacity 3 characters): embedding ["hi"] under ["pw"] succeeds, bits
    0-71 hold the magic and the length 2, bits 72-87 the two ciphertext
    bytes, the rest of the carrier is untouched, extracting with ["pw"]
    returns ["hi"] and extracting with ["xx"] does not. *)
Theorem scenario_10x18x3 :
  let run := encode_message carrier_10x18x3 text_hi password_pw in
  length (bit_plane carrier_10x18x3) = 540%nat
  /\ max_bytes carrier_10x18x3 = 3
  /\ outcome run = Encoded
  /\ firstn 72 (lsbs (bit_plane (img_after run)))
     = to_binary (STEGO ++ [0; 0; 0; 2])
  /\ slice 72 88 (lsbs (bit_plane (img_after run)))
     = to_binary (xor_key (Sha256.digest [112; 119]) [104; 105])
  /\ skipn 88 (bit_plane (img_after run)) = skipn 88 (bit_plane carrier_10x18x3)
  /\ decode_message (img_after run) password_pw = Decoded text_hi
  /\ decode_message (img_after run) password_xx <> Decoded text_hi.
Proof.
  cbv zeta. repeat split; try (vm_compute; reflexivity).
  vm_compute. discriminate.
Qed.

(** * Further properties of the decoder *)

Lemma scan_without_magic (total : nat) (password : str) (vs : list Z) :
  bytes_at 40 (lsbs vs) <> STEGO ->
  scan_pixel total password vs [] = (lsbs vs, None).
Proof.
  intros Hmagic. rewrite scan_pixel_none; [reflexivity|].
  intros k Hk. cbn [app]. unfold attempt.
  destruct (Nat.lt_ge_cases (length (firstn k (lsbs vs))) 72) as [Hs|Hl].
  - now rewrite parse_frame_short.
  - rewrite parse_frame_mismatch; [reflexivity|].
    rewrite length_firstn in Hl.
    rewrite bytes_at_firstn; [exact Hmagic|lia|reflexivity].
Qed.

Lemma scan_short (total : nat) (password : str) (vs : list Z) :
  (length vs < 72)%nat ->
  scan_pixel total password vs [] = (lsbs vs, None).
Proof.
  intros Hshort. rewrite scan_pixel_none; [reflexivity|].
  intros k Hk. cbn [app]. unfold attempt.
  rewrite parse_frame_short; [reflexivity|].
  rewrite length_firstn, lsbs_length. lia.
Qed.

(** A header at offset 0 whose length field is zero, exceeds the safety
    bound, or announces more payload than the bit plane holds, never leads
    to a [return]. *)
Lemma scan_unusable_header (total : nat) (password : str) (vs : list Z)
  (len : Z) (rest : list bool) :
  lsbs vs = to_binary (STEGO ++ be_bytes 4 len) ++ rest ->
  0 <= len < 2 ^ 32 ->
  len = 0 \/ Z.of_nat total / 8 < len \/ Z.of_nat (length rest) < len * 8 ->
  scan_pixel total password vs [] = (lsbs vs, None).
Proof.
  intros Hbits Hlen Hbad. rewrite scan_pixel_none; [reflexivity|].
  intros k Hk. cbn [app]. unfold attempt.
  assert (Hhdr : length (to_binary (STEGO ++ be_bytes 4 len)) = 72%nat).
  { rewrite to_binary_length, length_app, be_bytes_length. reflexivity. }
  destruct (Nat.lt_ge_cases k 72) as [Hs|Hl].
  - rewrite parse_frame_short; [reflexivity|]. rewrite length_firstn. lia.
  - rewrite Hbits, firstn_app, Hhdr, firstn_all2 by (rewrite Hhdr; lia).
    rewrite parse_frame_framed by exact Hlen.
    destruct (Z.leb_spec len 0) as [|Hpos]; [reflexivity|].
    destruct (Z.gtb_spec len (Z.of_nat total / 8)) as [|Hok]; [reflexivity|].
    cbn [orb]. rewrite length_firstn.
    destruct (Z.ltb_spec (Z.of_nat (Nat.min (k - 72) (length rest))) (len * 8));
      [reflexivity|lia].
Qed.

(** X1. Whatever produced the carrier: when its bit plane starts with the
    magic, a length [len] between 1 and the safety bound and [len] payload
    bytes, extraction returns the decryption of that payload; the channel
    values after the frame play no part. *)
Theorem extraction_of_framed_carrier (img : image) (password : str) (len : Z)
  (payload tail : list bool) :
  lsbs (bit_plane img) = to_binary (STEGO ++ be_bytes 4 len) ++ payload ++ tail ->
  0 < len < 2 ^ 32 ->
  len <= Z.of_nat (height img * width img * channels img) / 8 ->
  Z.of_nat (length payload) = len * 8 ->
  decode_message img password = decrypt_message password (full_bytes payload).
Proof.
  intros Hbits Hlen Hbound Hpayload. unfold decode_message.
  rewrite scan_bit_plane.
  now rewrite (scan_framed _ password _ len payload tail Hbits Hlen Hbound Hpayload).
Qed.

Lemma extraction_of_framed_carrier_witness :
  decode_message carrier_noisy_tail password_pw
  = decrypt_message password_pw
      (full_bytes (to_binary (xor_key (Sha256.digest [112; 119]) [104; 105]))).
Proof.
  apply (extraction_of_framed_carrier carrier_noisy_tail password_pw 2
           (to_binary (xor_key (Sha256.digest [112; 119]) [104; 105]))
           (repeat true 452)).
  - vm_compute. reflexivity.
  - split; vm_compute; reflexivity.
  - vm_compute. discriminate.
  - vm_compute. reflexivity.
Defined.

(** X2. A carrier whose bit plane starts with the magic but whose length
    field is zero, exceeds [total // 8], or announces more payload bytes
    than follow the header, is reported as holding no message. *)
Theorem unusable_length_field (img : image) (password : str) (len : Z)
  (rest : list bool) :
  lsbs (bit_plane img) = to_binary (STEGO ++ be_bytes 4 len) ++ rest ->
  0 <= len < 2 ^ 32 ->
  len = 0
  \/ Z.of_nat (height img * width img * channels img) / 8 < len
  \/ Z.of_nat (length rest) < len * 8 ->
  decode_message img password = NotFound.
Proof.
  intros Hbits Hlen Hbad. unfold decode_message. rewrite scan_bit_plane.
  now rewrite (scan_unusable_header _ password _ len rest Hbits Hlen Hbad).
Qed.

Lemma unusable_length_field_witness :
  decode_message carrier_overlong password_pw = NotFound.
Proof.
  apply (unusable_length_field carrier_overlong password_pw 100
           (repeat true 100 ++ repeat false 368)).
  - vm_compute. reflexivity.
  - split; vm_compute; [discriminate|reflexivity].
  - right. left. vm_compute. reflexivity.
Defined.

Lemma scan_pixel_lsbs (total : nat) (password : str) (vs : list Z) :
  forall ws acc,
    lsbs vs = lsbs ws ->
    scan_pixel total password vs acc = scan_pixel total password ws acc.
Proof.
  induction vs as [|v vs IH]; intros [|w ws] acc H; try discriminate.
  - reflexivity.
  - cbn [lsbs map] in H. injection H as Hv Hrest.
    cbn [scan_pixel]. rewrite Hv.
    destruct (attempt total password (acc ++ [Z.land w 1 =? 1])); [reflexivity|].
    apply IH. exact Hrest.
Qed.

(** X3. Extraction reads nothing but the least significant bits: two
    carriers with as many channel values and the same least significant
    bits give the same result, whatever their other seven bits. *)
Theorem extraction_reads_lsbs_only (a b : image) (password : str) :
  lsbs (bit_plane a) = lsbs (bit_plane b) ->
  (height a * width a * channels a = height b * width b * channels b)%nat ->
  decode_message a password = decode_message b password.
Proof.
  intros Hbits Htotal. unfold decode_message.
  rewrite !scan_bit_plane, Htotal.
  now rewrite (scan_pixel_lsbs _ password _ (bit_plane b) [] Hbits).
Qed.

Lemma extraction_reads_lsbs_only_witness :
  decode_message
    (img_after (encode_message (uniform_image 10 18 3 0) text_hi password_pw))
    password_pw
  = decode_message
      (img_after (encode_message (uniform_image 10 18 3 254) text_hi password_pw))
      password_pw.
Proof.
  apply extraction_reads_lsbs_only.
  - vm_compute. reflexivity.
  - vm_compute. reflexivity.
Defined.

Lemma concat_repeat {A : Type} (x : A) (k m : nat) :
  concat (repeat (repeat x k) m) = repeat x (m * k).
Proof.
  induction m as [|m IH]; [reflexivity|].
  cbn [repeat concat Nat.mul]. now rewrite IH, repeat_app.
Qed.

Lemma bit_plane_uniform (rows cols chans : nat) (v : Z) :
  bit_plane (uniform_image rows cols chans v) = repeat v (rows * cols * chans).
Proof.
  unfold bit_plane, uniform_image. rewrite concat_twice.
  rewrite map_repeat, !concat_repeat. f_equal. lia.
Qed.

(** X4. A carrier whose channel values are all equal, such as a blank
    image, is reported as holding no message, for every size and every
    password. *)
Theorem uniform_carrier_has_no_message (rows cols chans : nat) (v : Z)
  (password : str) :
  decode_message (uniform_image rows cols chans v) password = NotFound.
Proof.
  unfold decode_message. rewrite scan_bit_plane, bit_plane_uniform.
  set (n := (rows * cols * chans)%nat).
  set (total := (height _ * width _ * channels _)%nat). clearbody total.
  destruct (Nat.lt_ge_cases n 72) as [Hs|Hl].
  - rewrite scan_short; [reflexivity|]. now rewrite repeat_length.
  - rewrite scan_without_magic; [reflexivity|].
    unfold lsbs. rewrite map_repeat.
    replace n with (8 + (n - 8))%nat by lia. rewrite repeat_app.
    unfold bytes_at. change (range8 40) with [0; 8; 16; 24; 32]%nat.
    cbn [map]. unfold slice at 1. cbn [skipn Nat.add Nat.sub].
    rewrite firstn_app, firstn_all2 by (rewrite repeat_length; lia).
    rewrite repeat_length. cbn [Nat.sub firstn]. rewrite app_nil_r.
    intros E. apply (f_equal (hd 0)) in E. cbn [hd] in E.
    destruct (Z.land v 1 =? 1); vm_compute in E; discriminate.
Qed.

(** X5. A carrier with fewer than 72 channel values cannot hold a header
    and is reported as holding no message. *)
Theorem small_carrier_has_no_message (img : image) (password : str) :
  (length (bit_plane img) < 72)%nat ->
  decode_message img password = NotFound.
Proof.
  intros Hsmall. unfold decode_message. rewrite scan_bit_plane.
  now rewrite scan_short.
Qed.

Lemma small_carrier_has_no_message_witness :
  decode_message (carrier_of_lsbs 1 20 (firstn 60 (to_binary frame_hi_pw)))
    password_pw = NotFound.
Proof.
  apply small_carrier_has_no_message. apply Nat.ltb_lt. vm_compute. reflexivity.
Defined.

(** * Further properties of the encoder *)

Lemma lsbs_write_bits_any (bits : list bool) (vs : list Z) :
  lsbs (write_bits bits vs)
  = firstn (length vs) bits ++ skipn (length bits) (lsbs vs).
Proof.
  revert vs. induction bits as [|b bits IH]; intros vs.
  - destruct vs; reflexivity.
  - destruct vs as [|v vs]; [reflexivity|].
    cbn [write_bits lsbs map length skipn firstn app]. rewrite lsb_set_lsb.
    f_equal. apply IH.
Qed.

(** Extraction, with any password, from a carrier in which a frame was
    embedded that fits. *)
Lemma embedded_frame_decodes (img : image) (key message_bytes : list Z)
  (password : str) :
  well_shaped img ->
  Forall is_byte key -> key <> [] ->
  Forall is_byte message_bytes -> message_bytes <> [] ->
  (72 + 8 * length message_bytes <= height img * width img * channels img)%nat ->
  Z.of_nat (length message_bytes) < 2 ^ 32 ->
  decode_message (embed (to_binary (frame key message_bytes)) img) password
  = decrypt_message password (xor_key key message_bytes).
Proof.
  intros Hshape Hkey Hkne Hbytes Hne Hfit Hlen.
  unfold decode_message. rewrite scan_bit_plane.
  rewrite embed_height, embed_width, embed_channels.
  pose proof (bit_plane_length img Hshape) as Htotal.
  set (total := (height img * width img * channels img)%nat) in *.
  assert (Hpos : (0 < length message_bytes)%nat).
  { destruct message_bytes; [congruence|cbn; lia]. }
  rewrite (scan_framed total password _ (Z.of_nat (length message_bytes))
             (to_binary (xor_key key message_bytes))
             (skipn (72 + 8 * length message_bytes) (lsbs (bit_plane img)))).
  - cbn [snd]. rewrite full_bytes_to_binary; [reflexivity|].
    now apply xor_key_range.
  - apply lsbs_embed_frame. lia.
  - lia.
  - assert (8 * Z.of_nat (length message_bytes) + 72 <= Z.of_nat total) by lia.
    z_arith.
  - rewrite to_binary_length, xor_key_length. lia.
Qed.

(** X6. The wire format. After a successful run whose frame fits the bit
    plane, the least significant bits of the carrier are, in order: the
    five bytes of the magic, the byte length of the UTF-8 message on four
    big-endian bytes, the message bytes XORed with the key stream, and then
    the original least significant bits. *)
Theorem wire_format (img : image) (message password : str)
  (password_bytes message_bytes : list Z) :
  utf8_encode password = Some password_bytes ->
  utf8_encode message = Some message_bytes ->
  outcome (encode_message img message password) = Encoded ->
  (72 + 8 * length message_bytes <= length (bit_plane img))%nat ->
  lsbs (bit_plane (img_after (encode_message img message password)))
  = to_binary STEGO
      ++ to_binary (be_bytes 4 (Z.of_nat (length message_bytes)))
      ++ to_binary (xor_key (Sha256.digest password_bytes) message_bytes)
      ++ skipn (72 + 8 * length message_bytes) (lsbs (bit_plane img)).
Proof.
  intros Hp Hm Hok Hfit.
  destruct (encode_message_encoded img message password Hok)
    as [pb [mb [Hp' [Hm' [_ [_ [Himg _]]]]]]].
  rewrite Hp in Hp'. rewrite Hm in Hm'.
  apply some_inj in Hp'. apply some_inj in Hm'. subst pb mb.
  rewrite Himg, lsbs_embed_frame by exact Hfit.
  now rewrite to_binary_app, <- app_assoc.
Qed.

Lemma wire_format_witness :
  lsbs (bit_plane (img_after (encode_message carrier_10x18x3 text_hi password_pw)))
  = to_binary STEGO
      ++ to_binary (be_bytes 4 (Z.of_nat (length [104; 105])))
      ++ to_binary (xor_key (Sha256.digest [112; 119]) [104; 105])
      ++ skipn (72 + 8 * length [104; 105]) (lsbs (bit_plane carrier_10x18x3)).
Proof.
  apply (wire_format carrier_10x18x3 text_hi password_pw [112; 119] [104; 105]).
  - reflexivity.
  - reflexivity.
  - vm_compute. reflexivity.
  - apply Nat.leb_le. vm_compute. reflexivity.
Defined.

(** X7. The capacity check counts characters, the frame holds bytes: when
    a run ends with success although the frame is longer than the bit
    plane, the frame was cut off at the end of the carrier, and extraction,
    with any password, reports that no message was found. *)
Theorem truncated_frame_is_lost (img : image) (message password password' : str)
  (message_bytes : list Z) :
  utf8_encode message = Some message_bytes ->
  outcome (encode_message img message password) = Encoded ->
  (length (bit_plane img) < 72 + 8 * length message_bytes)%nat ->
  decode_message (img_after (encode_message img message password)) password'
  = NotFound.
Proof.
  intros Hm Hok Hcut.
  destruct (encode_message_encoded img message password Hok)
    as [pb [mb [_ [Hm' [_ [Hlen [Himg _]]]]]]].
  rewrite Hm in Hm'. apply some_inj in Hm'. subst mb.
  rewrite Himg. unfold decode_message. rewrite scan_bit_plane.
  set (total := (height _ * width _ * channels _)%nat). clearbody total.
  set (key := Sha256.digest pb).
  assert (Hfl : length (to_binary (frame key message_bytes))
                = (72 + 8 * length message_bytes)%nat).
  { unfold frame. rewrite to_binary_length, !length_app, be_bytes_length,
      xor_key_length. cbn [STEGO length]. lia. }
  assert (Hbits : lsbs (bit_plane (embed (to_binary (frame key message_bytes)) img))
                  = firstn (length (bit_plane img))
                      (to_binary (frame key message_bytes))).
  { rewrite bit_plane_embed, lsbs_write_bits_any.
    rewrite skipn_all2 by (rewrite lsbs_length, Hfl; lia). apply app_nil_r. }
  destruct (Nat.lt_ge_cases (length (bit_plane img)) 72) as [Hs|Hl].
  - rewrite scan_short; [reflexivity|].
    now rewrite bit_plane_embed, write_bits_length.
  - assert (Hhdr : length (to_binary (STEGO ++ be_bytes 4
                                         (Z.of_nat (length message_bytes))))
                   = 72%nat).
    { rewrite to_binary_length, length_app, be_bytes_length. reflexivity. }
    rewrite (scan_unusable_header total password' _
               (Z.of_nat (length message_bytes))
               (firstn (length (bit_plane img) - 72)
                  (to_binary (xor_key key message_bytes)))).
    + reflexivity.
    + rewrite Hbits. unfold frame. rewrite xor_key_length, to_binary_app.
      rewrite firstn_app, Hhdr, firstn_all2 by (rewrite Hhdr; lia).
      reflexivity.
    + lia.
    + right. right. rewrite length_firstn. lia.
Qed.

Lemma truncated_frame_is_lost_witness :
  outcome (encode_message carrier_10x24x3 text_emoji password_pw) = Encoded
  /\ decode_message
       (img_after (encode_message carrier_10x24x3 text_emoji password_pw))
       password_pw
     = NotFound.
Proof.
  assert (Hok : outcome (encode_message carrier_10x24x3 text_emoji password_pw)
                = Encoded) by (vm_compute; reflexivity).
  split; [exact Hok|].
  apply (truncated_frame_is_lost carrier_10x24x3 text_emoji password_pw password_pw
           (concat (repeat [240; 159; 152; 128] 21))).
  - vm_compute. reflexivity.
  - exact Hok.
  - apply Nat.ltb_lt. vm_compute. reflexivity.
Defined.

Lemma utf8_encode_ascii (s : str) :
  Forall (fun c => 0 <= c < 128) s -> utf8_encode s = Some s.
Proof.
  induction 1 as [|c s Hc Hs IH]; [reflexivity|].
  cbn [utf8_encode]. rewrite IH. unfold encode_code_point.
  destruct (Z.ltb_spec c 0); [lia|].
  destruct (Z.ltb_spec c 128); [reflexivity|lia].
Qed.

(** X8. For ASCII text on a three-channel carrier the capacity check is
    enough: a non-empty ASCII message that passes it (and is shorter than
    [2^32]) is embedded in full and extracted unchanged with the same
    password. *)
Theorem ascii_round_trip (img : image) (message password : str)
  (password_bytes : list Z) :
  well_shaped img ->
  channels img = 3%nat ->
  utf8_encode password = Some password_bytes ->
  message <> [] ->
  Forall (fun c => 0 <= c < 128) message ->
  Z.of_nat (length message) <= max_bytes img ->
  Z.of_nat (length message) < 2 ^ 32 ->
  outcome (encode_message img message password) = Encoded
  /\ decode_message (img_after (encode_message img message password)) password
     = Decoded message.
Proof.
  intros Hshape Hch Hp Hne Hascii Hcap Hlen.
  pose proof (utf8_encode_ascii message Hascii) as Hm.
  pose proof (encode_message_succeeds img message password _ _ Hp Hm Hcap Hlen)
    as Hok.
  split; [exact Hok|].
  destruct (encode_message_encoded img message password Hok)
    as [pb [mb [Hp' [Hm' [_ [_ [Himg _]]]]]]].
  rewrite Hp in Hp'. rewrite Hm in Hm'.
  apply some_inj in Hp'. apply some_inj in Hm'. subst pb mb.
  rewrite Himg, embedded_frame_decodes.
  - unfold decrypt_message. rewrite Hp, xor_key_involutive.
    now rewrite (utf8_round_trip Replace message message Hm).
  - exact Hshape.
  - apply digest_range.
  - apply digest_nonempty.
  - eapply utf8_encode_range. exact Hm.
  - exact Hne.
  - unfold max_bytes in Hcap. rewrite Hch.
    assert (8 * (Z.of_nat (length message) + 64)
            <= Z.of_nat (height img) * Z.of_nat (width img) * 3) by z_arith.
    lia.
  - exact Hlen.
Qed.

Lemma ascii_round_trip_witness :
  outcome (encode_message carrier_10x18x3 text_hi password_pw) = Encoded
  /\ decode_message
       (img_after (encode_message carrier_10x18x3 text_hi password_pw))
       password_pw
     = Decoded text_hi.
Proof.
  apply (ascii_round_trip carrier_10x18x3 text_hi password_pw [112; 119]).
  - apply uniform_image_well_shaped.
  - reflexivity.
  - reflexivity.
  - discriminate.
  - unfold text_hi. repeat (apply Forall_cons; [lia|]). apply Forall_nil.
  - vm_compute. discriminate.
  - vm_compute. reflexivity.
Defined.

(** X9. Text that cannot be encoded as UTF-8 (a lone surrogate), in the
    message or in the password, makes a run that passed the capacity check
    end in the exception handler: it returns failure, the array is as it
    was and no file is written. *)
Theorem unencodable_text_is_refused (img : image) (message password : str) :
  Z.of_nat (length message) <= max_bytes img ->
  utf8_encode password = None \/ utf8_encode message = None ->
  outcome (encode_message img message password) = EncodingError
  /\ img_after (encode_message img message password) = img
  /\ output_file (encode_message img message password) = None.
Proof.
  intros Hcap Hbad. unfold encode_message.
  destruct (Z.gtb_spec (Z.of_nat (length message)) (max_bytes img)); [lia|].
  destruct (utf8_encode password) as [pb|].
  - destruct Hbad as [Hbad|Hbad]; [discriminate|]. rewrite Hbad.
    repeat split.
  - repeat split.
Qed.

Lemma unencodable_text_is_refused_witness :
  outcome (encode_message carrier_10x18x3 text_surrogate password_pw)
  = EncodingError
  /\ img_after (encode_message carrier_10x18x3 text_surrogate password_pw)
     = carrier_10x18x3
  /\ output_file (encode_message carrier_10x18x3 text_surrogate password_pw)
     = None.
Proof.
  apply unencodable_text_is_refused.
  - vm_compute. discriminate.
  - right. reflexivity.
Defined.

(** ** Shape and range of the result *)

Lemma for_each_map {A B : Type} (sz : A -> B) (body : A -> nat -> A * nat) :
  (forall x i, sz (fst (body x i)) = sz x) ->
  forall xs i, map sz (fst (for_each body xs i)) = map sz xs.
Proof.
  intros Hbody. induction xs as [|x xs IH]; intros i; [reflexivity|].
  cbn [for_each]. specialize (Hbody x i). destruct (body x i) as [x' i1].
  specialize (IH i1). destruct (for_each body xs i1) as [xs' i2].
  cbn [fst map] in *. now rewrite Hbody, IH.
Qed.

Lemma for_each_Forall {A : Type} (P : A -> Prop) (body : A -> nat -> A * nat) :
  (forall x i, P x -> P (fst (body x i))) ->
  forall xs i, Forall P xs -> Forall P (fst (for_each body xs i)).
Proof.
  intros Hbody. induction xs as [|x xs IH]; intros i Hxs; [constructor|].
  inversion Hxs as [|? ? Hx Hrest]; subst.
  cbn [for_each]. specialize (Hbody x i Hx). destruct (body x i) as [x' i1].
  specialize (IH i1 Hrest). destruct (for_each body xs i1) as [xs' i2].
  cbn [fst] in *. now constructor.
Qed.

(** The lengths of the rows and of the pixels. *)
Lemma embed_shape (binary_data : list bool) (img : image) :
  map (map (@length Z)) (embed binary_data img) = map (map (@length Z)) img.
Proof.
  unfold embed. apply for_each_map. intros row i.
  apply for_each_map. intros px j. apply embed_pixel_length.
Qed.

Lemma write_bits_range (bits : list bool) (vs : list Z) :
  Forall is_byte vs -> Forall is_byte (write_bits bits vs).
Proof.
  intros Hvs. revert bits. induction Hvs as [|v vs Hv Hvs IH]; intros bits.
  - destruct bits; constructor.
  - destruct bits as [|b bits]; cbn [write_bits].
    + now constructor.
    + constructor; [now apply set_lsb_byte|apply IH].
Qed.

Lemma embed_valid (binary_data : list bool) (img : image) :
  valid_carrier img -> valid_carrier (embed binary_data img).
Proof.
  unfold valid_carrier, embed. intros H.
  apply for_each_Forall; [|exact H]. intros row i Hrow.
  apply for_each_Forall; [|exact Hrow]. intros px j Hpx.
  rewrite embed_pixel_write. now apply write_bits_range.
Qed.

Lemma embed_well_shaped (binary_data : list bool) (img : image) :
  well_shaped img -> well_shaped (embed binary_data img).
Proof.
  unfold well_shaped. rewrite embed_width, embed_channels.
  unfold embed. intros H.
  apply for_each_Forall; [|exact H]. intros row i [Hw Hc]. split.
  - now rewrite for_each_length.
  - apply for_each_Forall; [|exact Hc]. intros px j Hpx.
    now rewrite embed_pixel_length.
Qed.

Lemma encode_message_img_after (img : image) (message password : str) :
  img_after (encode_message img message password) = img
  \/ exists binary_data,
       img_after (encode_message img message password) = embed binary_data img.
Proof.
  unfold encode_message.
  destruct (Z.of_nat (length message) >? max_bytes img); [now left|].
  destruct (utf8_encode password); [|now left].
  destruct (utf8_encode message); [|now left].
  destruct (to_bytes4 _); [|now left].
  right. eexists. reflexivity.
Qed.

(** X10. Whatever the outcome of a run, the array it leaves is an image
    like the one it was given: rectangular if the input was, with the same
    row and pixel lengths, and with 8-bit channel values if the input had
    them. *)
Theorem encode_keeps_image_wellformed (img : image) (message password : str) :
  map (map (@length Z)) (img_after (encode_message img message password))
  = map (map (@length Z)) img
  /\ (well_shaped img ->
      well_shaped (img_after (encode_message img message password)))
  /\ (valid_carrier img ->
      valid_carrier (img_after (encode_message img message password))).
Proof.
  destruct (encode_message_img_after img message password) as [->|[bd ->]].
  - repeat split; auto.
  - split; [apply embed_shape|].
    split; [apply embed_well_shaped|apply embed_valid].
Qed.

Lemma encode_keeps_image_wellformed_witness :
  well_shaped (img_after (encode_message carrier_10x18x3 text_hi password_pw))
  /\ valid_carrier (img_after (encode_message carrier_10x18x3 text_hi password_pw)).
Proof.
  destruct (encode_keeps_image_wellformed carrier_10x18x3 text_hi password_pw)
    as [_ [Hs Hv]].
  split.
  - apply Hs. apply uniform_image_well_shaped.
  - apply Hv. unfold valid_carrier, carrier_10x18x3, uniform_image.
    repeat (apply Forall_forall; intros ? ->%repeat_spec).
    unfold is_byte. lia.
Defined.

(** X11. Extraction with another password does not fail: from a carrier in
    which a non-empty message was embedded in full, extraction with any
    encodable password returns a text, the lossy decoding of the message
    bytes XORed with both key streams. *)
Theorem extraction_with_another_password (img : image)
  (message password password' : str)
  (password_bytes password_bytes' message_bytes : list Z) :
  well_shaped img ->
  utf8_encode password = Some password_bytes ->
  utf8_encode password' = Some password_bytes' ->
  utf8_encode message = Some message_bytes ->
  message <> [] ->
  outcome (encode_message img message password) = Encoded ->
  (72 + 8 * length message_bytes <= height img * width img * channels img)%nat ->
  exists text,
    utf8_decode Replace
      (xor_key (Sha256.digest password_bytes')
         (xor_key (Sha256.digest password_bytes) message_bytes)) = Some text
    /\ decode_message (img_after (encode_message img message password)) password'
       = Decoded text.
Proof.
  intros Hshape Hp Hp' Hm Hne Hok Hfit.
  destruct (encode_message_encoded img message password Hok)
    as [pb [mb [Hpb [Hmb [_ [Hlen [Himg _]]]]]]].
  rewrite Hp in Hpb. rewrite Hm in Hmb.
  apply some_inj in Hpb. apply some_inj in Hmb. subst pb mb.
  destruct (utf8_decode_replace_total
              (xor_key (Sha256.digest password_bytes')
                 (xor_key (Sha256.digest password_bytes) message_bytes)))
    as [text Htext].
  exists text. split; [exact Htext|].
  rewrite Himg, embedded_frame_decodes.
  - unfold decrypt_message. now rewrite Hp', Htext.
  - exact Hshape.
  - apply digest_range.
  - apply digest_nonempty.
  - eapply utf8_encode_range. exact Hm.
  - eapply utf8_encode_nonempty; eauto.
  - exact Hfit.
  - exact Hlen.
Qed.

Lemma extraction_with_another_password_witness :
  exists text,
    utf8_decode Replace
      (xor_key (Sha256.digest [120; 120])
         (xor_key (Sha256.digest [112; 119]) [104; 105])) = Some text
    /\ decode_message
         (img_after (encode_message carrier_10x18x3 text_hi password_pw))
         password_xx
       = Decoded text.
Proof.
  apply (extraction_with_another_password carrier_10x18x3 text_hi
           password_pw password_xx [112; 119] [120; 120] [104; 105]).
  - apply uniform_image_well_shaped.
  - reflexivity.
  - reflexivity.
  - reflexivity.
  - discriminate.
  - vm_compute. reflexivity.
  - apply Nat.leb_le. vm_compute. reflexivity.
Defined.

(** ** Running the encoder again *)

Lemma set_lsb_idempotent (v : Z) (b : bool) : set_lsb (set_lsb v b) b = set_lsb v b.
Proof.
  unfold set_lsb. rewrite Z.land_lor_distr_l, <- Z.land_assoc.
  change (Z.land 254 254) with 254.
  replace (Z.land (Z.b2z b) 254) with 0 by (now destruct b).
  now rewrite Z.lor_0_r.
Qed.

Lemma write_bits_idempotent (bits : list bool) (vs : list Z) :
  write_bits bits (write_bits bits vs) = write_bits bits vs.
Proof.
  revert vs. induction bits as [|b bits IH]; intros vs.
  - destruct vs; reflexivity.
  - destruct vs as [|v vs]; [reflexivity|].
    cbn [write_bits]. now rewrite set_lsb_idempotent, IH.
Qed.

Lemma app_same_length {A : Type} (x y r r' : list A) :
  length x = length y -> x ++ r = y ++ r' -> x = y /\ r = r'.
Proof.
  revert y. induction x as [|a x IH]; intros [|b y] Hl H; try discriminate.
  - now split.
  - cbn in Hl, H. injection H as -> H. injection Hl as Hl.
    destruct (IH y Hl H) as [-> ->]. now split.
Qed.

Lemma concat_same_lengths {A : Type} (a b : list (list A)) :
  map (@length A) a = map (@length A) b -> concat a = concat b -> a = b.
Proof.
  revert b. induction a as [|x a IH]; intros [|y b] Hl H; try discriminate.
  - reflexivity.
  - cbn [map] in Hl. injection Hl as Hxy Hl. cbn [concat] in H.
    destruct (app_same_length x y _ _ Hxy H) as [-> Hrest].
    now rewrite (IH b Hl Hrest).
Qed.

(** Two arrays with the same row and pixel lengths and the same bit plane
    are the same array. *)
Lemma same_shape_same_plane (a b : image) :
  map (map (@length Z)) a = map (map (@length Z)) b ->
  bit_plane a = bit_plane b -> a = b.
Proof.
  intros Hshape Hplane. apply concat_same_lengths.
  - apply (f_equal (map (@length nat))) in Hshape.
    rewrite !map_map in Hshape.
    erewrite map_ext in Hshape; [|intros; apply length_map].
    symmetry in Hshape.
    erewrite map_ext in Hshape; [|intros; apply length_map].
    now symmetry.
  - apply concat_same_lengths; [|exact Hplane].
    rewrite !concat_map. now rewrite Hshape.
Qed.

Lemma embed_idempotent (binary_data : list bool) (img : image) :
  embed binary_data (embed binary_data img) = embed binary_data img.
Proof.
  apply same_shape_same_plane.
  - apply embed_shape.
  - rewrite !bit_plane_embed. apply write_bits_idempotent.
Qed.

Lemma max_bytes_embed (binary_data : list bool) (img : image) :
  max_bytes (embed binary_data img) = max_bytes img.
Proof. unfold max_bytes. now rewrite embed_height, embed_width. Qed.

(** X14. Running the encoder a second time on its own result, with the
    same message and the same password, changes nothing: the array it
    leaves is the array it was given. *)
Theorem encoding_twice_changes_nothing (img : image) (message password : str) :
  img_after
    (encode_message (img_after (encode_message img message password))
       message password)
  = img_after (encode_message img message password).
Proof.
  unfold encode_message at 2 3.
  destruct (Z.gtb_spec (Z.of_nat (length message)) (max_bytes img)) as [Hl|Hl].
  { cbn [img_after]. unfold encode_message.
    destruct (Z.gtb_spec (Z.of_nat (length message)) (max_bytes img)); [|lia].
    reflexivity. }
  destruct (utf8_encode password) as [pb|] eqn:Hp.
  2:{ cbn [img_after]. unfold encode_message.
      destruct (Z.of_nat (length message) >? max_bytes img); [reflexivity|].
      now rewrite Hp. }
  destruct (utf8_encode message) as [mb|] eqn:Hm.
  2:{ cbn [img_after]. unfold encode_message.
      destruct (Z.of_nat (length message) >? max_bytes img); [reflexivity|].
      now rewrite Hp, Hm. }
  destruct (to_bytes4 (Z.of_nat (length (xor_key (Sha256.digest pb) mb))))
    as [lb|] eqn:Hb.
  2:{ cbn [img_after]. unfold encode_message.
      destruct (Z.of_nat (length message) >? max_bytes img); [reflexivity|].
      now rewrite Hp, Hm, Hb. }
  cbn [img_after]. unfold encode_message. rewrite max_bytes_embed.
  destruct (Z.gtb_spec (Z.of_nat (length message)) (max_bytes img)); [lia|].
  rewrite Hp, Hm, Hb. cbn [img_after]. apply embed_idempotent.
Qed.

(** Embedding then extracting with the same password. *)
Lemma embed_then_extract (img : image) (message password : str)
  (password_bytes message_bytes : list Z) :
  well_shaped img ->
  utf8_encode password = Some password_bytes ->
  utf8_encode message = Some message_bytes ->
  message <> [] ->
  Z.of_nat (length message) <= max_bytes img ->
  (72 + 8 * length message_bytes <= height img * width img * channels img)%nat ->
  Z.of_nat (length message_bytes) < 2 ^ 32 ->
  outcome (encode_message img message password) = Encoded
  /\ decode_message (img_after (encode_message img message password)) password
     = Decoded message.
Proof.
  intros Hshape Hp Hm Hne Hcap Hfit Hlen.
  pose proof (encode_message_succeeds img message password _ _ Hp Hm Hcap Hlen)
    as Hok.
  split; [exact Hok|].
  destruct (encode_message_encoded img message password Hok)
    as [pb [mb [Hp' [Hm' [_ [_ [Himg _]]]]]]].
  rewrite Hp in Hp'. rewrite Hm in Hm'.
  apply some_inj in Hp'. apply some_inj in Hm'. subst pb mb.
  rewrite Himg, embedded_frame_decodes.
  - unfold decrypt_message. rewrite Hp, xor_key_involutive.
    now rewrite (utf8_round_trip Replace message message_bytes Hm).
  - exact Hshape.
  - apply digest_range.
  - apply digest_nonempty.
  - eapply utf8_encode_range. exact Hm.
  - eapply utf8_encode_nonempty; eauto.
  - exact Hfit.
  - exact Hlen.
Qed.

(** X13. A second message replaces the first: whatever was embedded in a
    carrier before, and under whatever password, a later run that embeds a
    non-empty message in full makes extraction with the later password
    return the later message. *)
Theorem second_message_replaces_first (img : image)
  (message1 password1 message2 password2 : str)
  (password_bytes2 message_bytes2 : list Z) :
  well_shaped img ->
  utf8_encode password2 = Some password_bytes2 ->
  utf8_encode message2 = Some message_bytes2 ->
  message2 <> [] ->
  Z.of_nat (length message2) <= max_bytes img ->
  (72 + 8 * length message_bytes2 <= height img * width img * channels img)%nat ->
  Z.of_nat (length message_bytes2) < 2 ^ 32 ->
  let first := img_after (encode_message img message1 password1) in
  outcome (encode_message first message2 password2) = Encoded
  /\ decode_message (img_after (encode_message first message2 password2))
       password2
     = Decoded message2.
Proof.
  intros Hshape Hp Hm Hne Hcap Hfit Hlen first.
  destruct (encode_message_img_after img message1 password1) as [E|[bd E]];
    unfold first; rewrite E.
  - now apply (embed_then_extract img message2 password2 password_bytes2
                 message_bytes2).
  - apply (embed_then_extract (embed bd img) message2 password2 password_bytes2
             message_bytes2); auto.
    + now apply embed_well_shaped.
    + now rewrite max_bytes_embed.
    + now rewrite embed_height, embed_width, embed_channels.
Qed.

Lemma second_message_replaces_first_witness :
  let first := img_after (encode_message carrier_10x18x3 [111; 108; 100] password_xx) in
  outcome (encode_message first text_hi password_pw) = Encoded
  /\ decode_message (img_after (encode_message first text_hi password_pw))
       password_pw
     = Decoded text_hi.
Proof.
  apply (second_message_replaces_first carrier_10x18x3 [111; 108; 100] password_xx
           text_hi password_pw [112; 119] [104; 105]).
  - apply uniform_image_well_shaped.
  - reflexivity.
  - reflexivity.
  - discriminate.
  - vm_compute. discriminate.
  - apply Nat.leb_le. vm_compute. reflexivity.
  - vm_compute. reflexivity.
Defined.

(** ** What extraction can return *)

Lemma utf8_decode_replace_nonempty (b : Z) (s : list Z) (t : str) :
  utf8_decode Replace (b :: s) = Some t -> t <> [].
Proof.
  cbn [utf8_decode]. unfold on_error.
  repeat match goal with
         | |- context [if ?c then _ else _] => destruct c
         | |- context [match ?l with [] => _ | _ :: _ => _ end] => destruct l
         end;
    match goal with
    | |- option_map _ ?x = Some _ -> _ =>
        destruct x; cbn [option_map]; intros E;
        [apply some_inj in E; subst t; discriminate|discriminate]
    end.
Qed.

Lemma full_bytes_nonempty (bits : list bool) :
  (8 <= length bits)%nat -> full_bytes bits <> [].
Proof.
  intros H. unfold full_bytes, range8.
  assert (Hq : exists q, ((length bits + 7) / 8 = S q)%nat).
  { destruct ((length bits + 7) / 8)%nat as [|q] eqn:E; [|now exists q].
    apply Nat.div_small_iff in E; lia. }
  destruct Hq as [q ->]. cbn [seq map filter].
  destruct (Nat.leb_spec (8 * 0 + 8) (length bits)); [discriminate|lia].
Qed.

Lemma parse_frame_nonempty (total : nat) (bits : list bool) (c : list Z) :
  parse_frame total bits = Some c -> c <> [].
Proof.
  unfold parse_frame.
  destruct (72 <=? length bits)%nat; [|discriminate].
  destruct (list_eq_dec _ _ _); [|discriminate].
  set (len := from_bytes _).
  destruct (Z.leb_spec len 0); [discriminate|].
  destruct (len >? Z.of_nat total / 8); [discriminate|]. cbn [orb].
  destruct (Z.ltb_spec (Z.of_nat (length bits)) (72 + len * 8)); [discriminate|].
  intros E. apply some_inj in E. subst c. apply full_bytes_nonempty.
  unfold slice. rewrite length_firstn, length_skipn. lia.
Qed.

Lemma scan_pixel_result (total : nat) (password : str) (vs : list Z) :
  forall acc r,
    snd (scan_pixel total password vs acc) = Some r ->
    exists c, c <> [] /\ r = decrypt_message password c.
Proof.
  induction vs as [|v vs IH]; intros acc r; [discriminate|].
  cbn [scan_pixel]. unfold attempt.
  destruct (parse_frame total (acc ++ [Z.land v 1 =? 1])) as [c|] eqn:E.
  - cbn [option_map snd]. intros H. apply some_inj in H. subst r.
    exists c. split; [|reflexivity]. eapply parse_frame_nonempty. exact E.
  - cbn [option_map]. apply IH.
Qed.

Lemma decoded_text_nonempty (img : image) (password : str) (text : str) :
  decode_message img password = Decoded text -> text <> [].
Proof.
  unfold decode_message. rewrite scan_bit_plane.
  destruct (snd (scan_pixel _ password (bit_plane img) [])) as [r|] eqn:E;
    [|discriminate].
  destruct (scan_pixel_result _ _ _ _ _ E) as [c [Hc ->]].
  unfold decrypt_message.
  destruct (utf8_encode password) as [pb|]; [|discriminate].
  destruct (utf8_decode Replace (xor_key (Sha256.digest pb) c)) as [t|] eqn:Ht;
    [|discriminate].
  intros H. injection H as ->.
  pose proof (xor_key_length (Sha256.digest pb) c) as Hl.
  destruct (xor_key (Sha256.digest pb) c) as [|b s];
    [destruct c; [congruence|discriminate]|].
  eapply utf8_decode_replace_nonempty. exact Ht.
Qed.

(** X12. With a password that can be encoded, extraction has two possible
    results only: no message found, or a decoded text, and a decoded text
    is never empty. *)
Theorem extraction_outcomes (img : image) (password : str)
  (password_bytes : list Z) :
  utf8_encode password = Some password_bytes ->
  decode_message img password = NotFound
  \/ exists text, text <> [] /\ decode_message img password = Decoded text.
Proof.
  intros Hp.
  destruct (decode_message img password) as [text| | |] eqn:E.
  - right. exists text. split; [|reflexivity].
    eapply decoded_text_nonempty. exact E.
  - exfalso. revert E. unfold decode_message. rewrite scan_bit_plane.
    destruct (snd (scan_pixel _ password (bit_plane img) [])) as [r|] eqn:Er;
      [|discriminate].
    destruct (scan_pixel_result _ _ _ _ _ Er) as [c [_ ->]].
    apply decrypt_message_outcome.
  - now left.
  - exfalso. revert E. unfold decode_message. rewrite scan_bit_plane.
    destruct (snd (scan_pixel _ password (bit_plane img) [])) as [r|] eqn:Er;
      [|discriminate].
    destruct (scan_pixel_result _ _ _ _ _ Er) as [c [_ ->]].
    unfold decrypt_message. rewrite Hp.
    destruct (utf8_decode Replace _); discriminate.
Qed.

Lemma extraction_outcomes_witness :
  decode_message carrier_shifted password_pw = NotFound
  \/ exists text,
       text <> [] /\ decode_message carrier_shifted password_pw = Decoded text.
Proof.
  apply (extraction_outcomes carrier_shifted password_pw [112; 119]).
  reflexivity.
Defined.

(** * The command line *)

(** X17. The [decode] command announces success exactly when
    [decode_message] returned a text: a returned text is never the empty
    string, which the command would take for a failure. *)
Theorem main_decode_reports_success (img : image) (typed_password : str) :
  main_decode img typed_password = true
  <-> exists text, decode_message img typed_password = Decoded text.
Proof.
  unfold main_decode. split.
  - destruct (decode_message img typed_password) as [text| | |];
      cbn [returned truthy]; try discriminate.
    intros _. now exists text.
  - intros [text E]. pose proof (decoded_text_nonempty _ _ _ E) as Hne.
    rewrite E. cbn [returned truthy]. destruct text; [congruence|reflexivity].
Qed.

(** X18. What the [encode] command embeds from a non-empty [-m] option,
    the [decode] command finds again with the same password and announces
    as a success; the text typed at the message prompt is not used. *)
Theorem command_line_round_trip (img : image)
  (message typed_message password : str)
  (password_bytes message_bytes : list Z) :
  well_shaped img ->
  utf8_encode password = Some password_bytes ->
  utf8_encode message = Some message_bytes ->
  message <> [] ->
  Z.of_nat (length message) <= max_bytes img ->
  (72 + 8 * length message_bytes <= height img * width img * channels img)%nat ->
  Z.of_nat (length message_bytes) < 2 ^ 32 ->
  outcome (main_encode img (Some message) typed_message password) = Encoded
  /\ main_decode
       (img_after (main_encode img (Some message) typed_message password))
       password
     = true.
Proof.
  intros Hshape Hp Hm Hne Hcap Hfit Hlen.
  unfold main_encode, main_decode.
  destruct message as [|c s]; [congruence|].
  destruct (embed_then_extract img (c :: s) password _ _
              Hshape Hp Hm Hne Hcap Hfit Hlen) as [Hok Hdec].
  split; [exact Hok|]. now rewrite Hdec.
Qed.

Lemma command_line_round_trip_witness :
  outcome (main_encode carrier_10x18x3 (Some text_hi) [111; 108; 100] password_pw)
  = Encoded
  /\ main_decode
       (img_after
          (main_encode carrier_10x18x3 (Some text_hi) [111; 108; 100] password_pw))
       password_pw
     = true.
Proof.
  apply (command_line_round_trip carrier_10x18x3 text_hi [111; 108; 100]
           password_pw [112; 119] [104; 105]).
  - apply uniform_image_well_shaped.
  - reflexivity.
  - reflexivity.
  - discriminate.
  - vm_compute. discriminate.
  - apply Nat.leb_le. vm_compute. reflexivity.
  - vm_compute. reflexivity.
Defined.

(** * [binary_to_string] *)

Lemma full_groups (n : nat) :
  filter (fun i => (i + 8 <=? n)%nat) (range8 n)
  = map (fun j => (8 * j)%nat) (seq 0 (n / 8)).
Proof.
  unfold range8.
  pose proof (Nat.div_mod_eq n 8) as E.
  pose proof (Nat.mod_upper_bound n 8 ltac:(lia)) as Hr.
  set (q := (n / 8)%nat) in *. set (r := (n mod 8)%nat) in *.
  destruct (Nat.eq_dec r 0) as [Hz|Hnz].
  - replace ((n + 7) / 8)%nat with q
      by (apply Nat.div_unique with (r := 7%nat); lia).
    apply filter_all. intros i Hi. apply in_map_iff in Hi.
    destruct Hi as [j [<- Hj]]. apply in_seq in Hj. apply Nat.leb_le. lia.
  - replace ((n + 7) / 8)%nat with (q + 1)%nat
      by (apply Nat.div_unique with (r := (r - 1)%nat); lia).
    rewrite seq_app, map_app, filter_app. cbn [seq map filter Nat.add].
    destruct (Nat.leb_spec (8 * q + 8) n); [lia|]. rewrite app_nil_r.
    apply filter_all. intros i Hi. apply in_map_iff in Hi.
    destruct Hi as [j [<- Hj]]. apply in_seq in Hj. apply Nat.leb_le. lia.
Qed.

Lemma binary_to_string_groups (binary : list bool) :
  binary_to_string binary
  = map (fun j => int2 (slice (8 * j) (8 * j + 8) binary))
        (seq 0 (length binary / 8)).
Proof. unfold binary_to_string. now rewrite full_groups, map_map. Qed.

Lemma int2_snoc (bits : list bool) (b : bool) :
  int2 (bits ++ [b]) = 2 * int2 bits + Z.b2z b.
Proof. unfold int2. now rewrite fold_left_app. Qed.

Lemma int2_bound (bits : list bool) :
  0 <= int2 bits < 2 ^ Z.of_nat (length bits).
Proof.
  induction bits as [|b bits IH] using rev_ind; [cbn; lia|].
  rewrite int2_snoc, length_app. cbn [length].
  replace (Z.of_nat (length bits + 1)) with (Z.succ (Z.of_nat (length bits))) by lia.
  rewrite Z.pow_succ_r by lia. destruct b; cbn [Z.b2z]; lia.
Qed.

(** X15. [binary_to_string] undoes the conversion to a bit string that the
    encoder uses, [format(byte, '08b')] for each byte, and drops up to
    seven bits that follow the last full group of eight. *)
Theorem binary_to_string_inverts_to_binary (bs : list Z) (extra : list bool) :
  Forall is_byte bs -> (length extra < 8)%nat ->
  binary_to_string (to_binary bs ++ extra) = bs.
Proof.
  intros Hbs Hextra. rewrite binary_to_string_groups.
  rewrite length_app, to_binary_length.
  replace ((8 * length bs + length extra) / 8)%nat with (length bs)
    by (apply Nat.div_unique with (r := length extra); lia).
  exact (bytes_at_window bs Hbs 0%nat [] extra eq_refl).
Qed.

Lemma binary_to_string_inverts_to_binary_witness :
  binary_to_string (to_binary [104; 105] ++ [true; false; true]) = [104; 105].
Proof.
  apply binary_to_string_inverts_to_binary.
  - repeat (apply Forall_cons; [unfold is_byte; lia|]). apply Forall_nil.
  - cbn [length]. lia.
Defined.

(** X16. [binary_to_string] returns one character for every full group of
    eight bits, [len(binary) // 8] in all, each with a code point below
    256; on fewer than eight bits it returns the empty string. *)
Theorem binary_to_string_size (binary : list bool) :
  length (binary_to_string binary) = (length binary / 8)%nat
  /\ Forall (fun c => 0 <= c < 256) (binary_to_string binary).
Proof.
  rewrite binary_to_string_groups. split.
  - now rewrite length_map, length_seq.
  - apply Forall_forall. intros c Hc. apply in_map_iff in Hc.
    destruct Hc as [j [<- _]].
    pose proof (int2_bound (slice (8 * j) (8 * j + 8) binary)) as [H0 H1].
    split; [exact H0|].
    eapply Z.lt_le_trans; [exact H1|].
    change 256 with (2 ^ 8). apply Z.pow_le_mono_r; [lia|].
    unfold slice. rewrite length_firstn. lia.
Qed.

(** * The claims on the capacity, the wrong password and the parse, revisited *)

(** C1, as the code has it by design. For a three-channel carrier the
    capacity is [floor(rows * cols * channels / 8) - 64], and a message
    whose UTF-8 byte length equals its number of characters is refused with
    the capacity error exactly when its byte length exceeds the capacity;
    such a message of exactly that many bytes passes the check. *)
Theorem capacity_check_in_bytes (img : image) (message password : str)
  (message_bytes : list Z) :
  channels img = 3%nat ->
  utf8_encode message = Some message_bytes ->
  length message_bytes = length message ->
  max_bytes img
  = Z.of_nat (height img) * Z.of_nat (width img) * Z.of_nat (channels img) / 8 - 64
  /\ ((exists n, outcome (encode_message img message password) = MessageTooLong n)
      <-> Z.of_nat (length message_bytes) > max_bytes img).
Proof.
  intros Hch Hm Hlen. split.
  - unfold max_bytes. now rewrite Hch.
  - rewrite Hlen. split.
    + intros [n Hn]. unfold encode_message in Hn.
      destruct (Z.gtb_spec (Z.of_nat (length message)) (max_bytes img)); [lia|].
      destruct (utf8_encode password); [|discriminate].
      rewrite Hm in Hn.
      destruct (to_bytes4 _); discriminate.
    + intros Hlong. exists (max_bytes img). unfold encode_message.
      destruct (Z.gtb_spec (Z.of_nat (length message)) (max_bytes img)); [|lia].
      reflexivity.
Qed.

Lemma capacity_check_in_bytes_witness :
  max_bytes carrier_10x18x3
  = Z.of_nat (height carrier_10x18x3) * Z.of_nat (width carrier_10x18x3)
    * Z.of_nat (channels carrier_10x18x3) / 8 - 64
  /\ ((exists n, outcome (encode_message carrier_10x18x3 [97; 98; 99] password_pw)
                 = MessageTooLong n)
      <-> Z.of_nat (length [97; 98; 99]) > max_bytes carrier_10x18x3).
Proof.
  apply (capacity_check_in_bytes carrier_10x18x3 [97; 98; 99] password_pw [97; 98; 99]);
    reflexivity.
Defined.

(** ** Strict decoding *)

(** Strict decoding only accepts what the encoder writes. *)
Lemma strict_decode_canonical (bs : list Z) :
  Forall is_byte bs ->
  forall s, utf8_decode Strict bs = Some s -> utf8_encode s = Some bs.
Proof.
  assert (H : forall n bs, (length bs <= n)%nat -> Forall is_byte bs ->
                forall s, utf8_decode Strict bs = Some s ->
                          utf8_encode s = Some bs).
  { clear bs. induction n as [|n IH]; intros bs Hn Hbs s Hs.
    - destruct bs; [|cbn in Hn; lia]. cbn in Hs. apply some_inj in Hs.
      now subst s.
    - destruct bs as [|ch s1].
      { cbn in Hs. apply some_inj in Hs. now subst s. }
      cbn [utf8_decode] in Hs. unfold on_error, is_continuation in Hs.
      repeat match type of Hs with
             | context [match ?l with [] => _ | _ :: _ => _ end] =>
                 destruct l; try discriminate Hs
             | context [?a <? ?b] =>
                 destruct (Z.ltb_spec a b);
                 cbn [negb orb andb] in Hs; cbv iota in Hs; try discriminate Hs
             | context [?a <=? ?b] =>
                 destruct (Z.leb_spec a b);
                 cbn [negb orb andb] in Hs; cbv iota in Hs; try discriminate Hs
             | context [?a =? ?b] =>
                 destruct (Z.eqb_spec a b);
                 cbn [negb orb andb] in Hs; cbv iota in Hs; try discriminate Hs
             end;
        repeat match goal with
               | Hb : Forall is_byte (_ :: _) |- _ =>
                   let Hx := fresh "Hx" in
                   let Hr := fresh "Hr" in
                   apply Forall_cons_iff in Hb; destruct Hb as [Hx Hr];
                   unfold is_byte in Hx
               end;
        match type of Hs with
        | option_map _ (utf8_decode Strict ?rest) = Some _ =>
            destruct (utf8_decode Strict rest) as [s'|] eqn:Er;
            [|discriminate Hs];
            cbn [option_map] in Hs; apply some_inj in Hs; subst s;
            assert (Hrest : utf8_encode s' = Some rest)
              by (apply (IH rest); [cbn [length] in Hn |- *; lia
                  |repeat (apply Forall_cons; [unfold is_byte; lia|]); assumption
                  |exact Er]);
            cbn [utf8_encode]; rewrite Hrest; unfold encode_code_point;
            decide_tests; cbn [app]; repeat f_equal; z_arith
        end. }
  intros Hbs s Hs. exact (H (length bs) bs (le_n _) Hbs s Hs).
Qed.

Lemma strict_implies_replace (bs : list Z) (s : str) :
  Forall is_byte bs ->
  utf8_decode Strict bs = Some s -> utf8_decode Replace bs = Some s.
Proof.
  intros Hbs Hs. apply utf8_round_trip.
  now apply strict_decode_canonical.
Qed.

(** C3 as the specification words it fails on the 10x18x3 carrier holding
    ["hi"] under ["pw"]: with the password ["xx"] the decrypted payload is
    the valid text [[5; 126]], and extraction returns it as a success, not
    as one of the two failure reports. *)
Lemma wrong_password_claim_counterexample :
  password_xx <> password_pw
  /\ outcome (encode_message carrier_10x18x3 text_hi password_pw) = Encoded
  /\ utf8_decode Strict
       (xor_key (Sha256.digest [120; 120])
          (xor_key (Sha256.digest [112; 119]) [104; 105]))
     = Some [5; 126]
  /\ ~ (decode_message
          (img_after (encode_message carrier_10x18x3 text_hi password_pw))
          password_xx = NotFound
        \/ decode_message
             (img_after (encode_message carrier_10x18x3 text_hi password_pw))
             password_xx = LikelyWrongPassword).
Proof.
  split; [discriminate|]. split; [vm_compute; reflexivity|].
  split; [vm_compute; reflexivity|].
  intros [H|H]; vm_compute in H; discriminate.
Qed.

(** C3, as the code has it by design. The frame carries no integrity
    check: from a carrier in which a non-empty message was embedded in
    full, extraction with another password, under which the payload would
    be encrypted differently, returns the decrypted payload as a successful
    decode whenever it is valid UTF-8, and that text is never the
    message. *)
Theorem wrong_password_valid_text (img : image)
  (message password password' text : str)
  (password_bytes password_bytes' message_bytes : list Z) :
  well_shaped img ->
  utf8_encode password = Some password_bytes ->
  utf8_encode password' = Some password_bytes' ->
  utf8_encode message = Some message_bytes ->
  message <> [] ->
  outcome (encode_message img message password) = Encoded ->
  (72 + 8 * length message_bytes <= height img * width img * channels img)%nat ->
  xor_key (Sha256.digest password_bytes') message_bytes
  <> xor_key (Sha256.digest password_bytes) message_bytes ->
  utf8_decode Strict
    (xor_key (Sha256.digest password_bytes')
       (xor_key (Sha256.digest password_bytes) message_bytes)) = Some text ->
  decode_message (img_after (encode_message img message password)) password'
  = Decoded text
  /\ text <> message.
Proof.
  intros Hshape Hp Hp' Hm Hne Hok Hfit Hdiff Hvalid.
  destruct (encode_message_encoded img message password Hok)
    as [pb [mb [Hpb [Hmb [_ [Hlen [Himg _]]]]]]].
  rewrite Hp in Hpb. rewrite Hm in Hmb.
  apply some_inj in Hpb. apply some_inj in Hmb. subst pb mb.
  assert (Hbytes : Forall is_byte message_bytes)
    by (eapply utf8_encode_range; exact Hm).
  assert (Hdec : Forall is_byte
                   (xor_key (Sha256.digest password_bytes')
                      (xor_key (Sha256.digest password_bytes) message_bytes))).
  { apply xor_key_range; [apply digest_range|apply digest_nonempty|].
    apply xor_key_range; [apply digest_range|apply digest_nonempty|exact Hbytes]. }
  split.
  - rewrite Himg, embedded_frame_decodes.
    + unfold decrypt_message. rewrite Hp'.
      now rewrite (strict_implies_replace _ _ Hdec Hvalid).
    + exact Hshape.
    + apply digest_range.
    + apply digest_nonempty.
    + exact Hbytes.
    + eapply utf8_encode_nonempty; eauto.
    + exact Hfit.
    + exact Hlen.
  - intros ->. apply Hdiff.
    pose proof (strict_decode_canonical _ Hdec _ Hvalid) as Hcanon.
    rewrite Hm in Hcanon. apply some_inj in Hcanon.
    rewrite <- (xor_key_involutive (Sha256.digest password_bytes')
                  (xor_key (Sha256.digest password_bytes) message_bytes)).
    now rewrite <- Hcanon.
Qed.

Lemma wrong_password_valid_text_witness :
  decode_message
    (img_after (encode_message carrier_10x18x3 text_hi password_pw)) password_xx
  = Decoded [5; 126]
  /\ [5; 126] <> text_hi.
Proof.
  apply (wrong_password_valid_text carrier_10x18x3 text_hi password_pw password_xx
           [5; 126] [112; 119] [120; 120] [104; 105]).
  - apply uniform_image_well_shaped.
  - reflexivity.
  - reflexivity.
  - reflexivity.
  - discriminate.
  - vm_compute. reflexivity.
  - apply Nat.leb_le. vm_compute. reflexivity.
  - vm_compute. discriminate.
  - vm_compute. reflexivity.
Defined.

(** C6 as the specification words it, for a parse at any offset, fails at
    bit offset 8 of the carrier that holds the frame of ["hi"] one byte
    late: there the five bytes are the magic, the length is 2, it is within
    [(540 - 8) / 8 - 9] and its payload bytes are all there, none of the
    four conditions holds, and yet no candidate parse of the code matches
    at any scan position. *)
Lemma parse_rejection_claim_counterexample :
  let bits := lsbs (bit_plane carrier_shifted) in
  let at_offset := skipn 8 bits in
  let message_length := from_bytes (bytes_at 32 (slice 40 72 at_offset)) in
  length bits = 540%nat
  /\ ~ (bytes_at 40 at_offset <> STEGO
        \/ message_length = 0
        \/ message_length > (Z.of_nat 540 - 8) / 8 - 9
        \/ (Z.of_nat (length at_offset) - 72) / 8 < message_length)
  /\ (forall k, attempt 540 password_pw (firstn k bits) = None)
  /\ decode_message carrier_shifted password_pw = NotFound.
Proof.
  cbv zeta. split; [vm_compute; reflexivity|]. split.
  - intros [H|[H|[H|H]]].
    + apply H. vm_compute. reflexivity.
    + vm_compute in H. discriminate.
    + vm_compute in H. discriminate.
    + vm_compute in H. discriminate.
  - split; [|vm_compute; reflexivity].
    intros k. unfold attempt.
    destruct (Nat.lt_ge_cases
                (length (firstn k (lsbs (bit_plane carrier_shifted)))) 72)
      as [Hs|Hl].
    + now rewrite parse_frame_short.
    + rewrite parse_frame_mismatch; [reflexivity|].
      rewrite length_firstn in Hl.
      rewrite bytes_at_firstn; [|lia|reflexivity].
      vm_compute. discriminate.
Qed.
